(** * A Naive Bayes spam filter for SMS messages: model and properties

    Shallow embedding of the R notebook
    [Building a Spam Filter using Naive Bayes in R.Rmd].

    Conventions of the model.
    - A character is a code point below 256 (the Latin-1 range, which is
      where the notebook's [\u0092], [\u0094] and [\u0096] live); it is
      represented by [ascii], and a message by [string].
    - The character classes are the ones of the ICU engine behind stringr:
      [[:punct:]] is the general category P, [[:digit:]] is Nd, the regex
      class [\s] is tab, line feed, form feed, carriage return and the
      category Z, and [stri_trim_both] strips the White_Space property.
    - A label is one of the two values of the [label] column.
    - An R double is an exact rational or one of [Inf], [-Inf], [NaN];
      rounding is not modelled.  [NA] is [None].
    - A chunk that stops with an R error yields [Stop]. *)

From Stdlib Require Import List Bool Arith ZArith NArith QArith Lia Lqa.
From Stdlib Require Import Qround Qabs.
From Stdlib Require Import Ascii String.
From Stdlib Require Import Permutation.
Import ListNotations.

Open Scope string_scope.
Open Scope list_scope.

(** ** Characters *)

Module Chars.

Definition code (c : ascii) : N := N_of_ascii c.

Definition between (lo hi : N) (c : ascii) : bool :=
  ((lo <=? code c) && (code c <=? hi))%N.

Definition one_of (l : list N) (c : ascii) : bool :=
  existsb (N.eqb (code c)) l.

(** [str_to_lower] on one code point: A-Z and the Latin-1 capitals
    U+00C0..U+00DE (the multiplication sign U+00D7 is not a letter). *)
Definition is_upper (c : ascii) : bool :=
  between 65 90 c || (between 192 222 c && negb (N.eqb (code c) 215)).

Definition lower (c : ascii) : ascii :=
  if is_upper c then ascii_of_N (code c + 32) else c.

(** [[:punct:]]: the code points below 256 of general category P.  The
    symbols (dollar, plus, less-than, equals, greater-than, caret, grave
    accent, bar and tilde) are of category S and are not matched. *)
Definition is_punct : ascii -> bool :=
  one_of [33; 34; 35; 37; 38; 39; 40; 41; 42; 44; 45; 46; 47; 58; 59; 63; 64;
          91; 92; 93; 95; 123; 125; 161; 167; 171; 182; 183; 187; 191]%N.

(** [[\u0094\u0092\u0096\n\t]] *)
Definition is_special : ascii -> bool := one_of [148; 146; 150; 10; 9]%N.

(** [[:digit:]] *)
Definition is_digit : ascii -> bool := between 48 57.

(** The regular expression class [\s]. *)
Definition is_space : ascii -> bool := one_of [9; 10; 12; 13; 32; 160]%N.

(** The White_Space property, which [stri_trim_both] strips. *)
Definition is_wspace (c : ascii) : bool :=
  between 9 13 c || one_of [32; 133; 160]%N c.

Definition space : ascii := ascii_of_N 32.

End Chars.

(** ** Text normalizer *)

Fixpoint str_map (f : ascii -> ascii) (s : string) : string :=
  match s with
  | EmptyString => EmptyString
  | String c r => String (f c) (str_map f r)
  end.

(** [str_replace_all(s, "[class]", "")] *)
Fixpoint str_remove (p : ascii -> bool) (s : string) : string :=
  match s with
  | EmptyString => EmptyString
  | String c r => if p c then str_remove p r else String c (str_remove p r)
  end.

Definition str_to_lower : string -> string := str_map Chars.lower.

(** [str_replace_all(s, "\\s+", " ")]: [in_run] tells that the previous
    character belonged to the run of white space being replaced. *)
Fixpoint collapse (in_run : bool) (s : string) : string :=
  match s with
  | EmptyString => EmptyString
  | String c r =>
      if Chars.is_space c
      then if in_run then collapse true r
           else String Chars.space (collapse true r)
      else String c (collapse false r)
  end.

Fixpoint trim_left (s : string) : string :=
  match s with
  | EmptyString => EmptyString
  | String c r => if Chars.is_wspace c then trim_left r else s
  end.

Fixpoint trim_right (s : string) : string :=
  match s with
  | EmptyString => EmptyString
  | String c r =>
      match trim_right r with
      | EmptyString => if Chars.is_wspace c then EmptyString
                       else String c EmptyString
      | r' => String c r'
      end
  end.

Definition stri_trim_both (s : string) : string := trim_right (trim_left s).

(** [str_squish(s)] is [stri_trim_both(str_replace_all(s, "\\s+", " "))]. *)
Definition str_squish (s : string) : string :=
  stri_trim_both (collapse false s).

(** The cleaning pipeline of [tidy_train] and of [classify]. *)
Definition normalize (s : string) : string :=
  str_remove Chars.is_digit
    (str_remove Chars.is_special
       (str_remove Chars.is_punct
          (str_squish (str_to_lower s)))).

(** [str_split(s, " ")[[1]]]: every single space separates two pieces, empty
    pieces are kept, and the empty string gives one empty piece. *)
Fixpoint str_split (s : string) : list string :=
  match s with
  | EmptyString => [EmptyString]
  | String c r =>
      if Ascii.eqb c Chars.space then EmptyString :: str_split r
      else match str_split r with
           | [] => [String c EmptyString]
           | t :: ts => String c t :: ts
           end
  end.

(** ** Numbers and results *)

(** A chunk either stops with an R error or yields a value. *)
Inductive res (A : Type) : Type :=
| Stop : res A
| Val : A -> res A.
Arguments Stop {A}.
Arguments Val {A} _.

Definition bind {A B : Type} (m : res A) (k : A -> res B) : res B :=
  match m with
  | Stop => Stop
  | Val a => k a
  end.

Notation "x <- m ;; k" := (bind m (fun x => k))
  (at level 61, m at next level, right associativity).

(** R doubles without rounding. *)
Inductive dbl : Type :=
| Fin (q : Q)
| PInf
| NInf
| NaN.

(** Sign of a double that is not [NaN]. *)
Definition dbl_sign (x : dbl) : comparison :=
  match x with
  | Fin q => (q ?= 0)%Q
  | PInf => Gt
  | NInf => Lt
  | NaN => Eq
  end.

(** [a / b] for two finite operands; a zero divisor gives [Inf], [-Inf]
    or, for [0 / 0], [NaN]. *)
Definition dbl_div (a b : Q) : dbl :=
  if Qeq_bool b 0
  then match (a ?= 0)%Q with
       | Gt => PInf
       | Lt => NInf
       | Eq => NaN
       end
  else Fin (a / b)%Q.

Definition dbl_mul (x y : dbl) : dbl :=
  match x, y with
  | NaN, _ | _, NaN => NaN
  | Fin a, Fin b => Fin (a * b)%Q
  | _, _ =>
      match dbl_sign x, dbl_sign y with
      | Eq, _ | _, Eq => NaN
      | Gt, Gt | Lt, Lt => PInf
      | _, _ => NInf
      end
  end.

(** [x >= y]; a comparison with [NaN] is [NA]. *)
Definition dbl_ge (x y : dbl) : option bool :=
  match x, y with
  | NaN, _ | _, NaN => None
  | Fin a, Fin b => Some (Qle_bool b a)
  | PInf, _ | _, NInf => Some true
  | _, _ => Some false
  end.

(** [prod(v)] *)
Definition prod (v : list dbl) : dbl := fold_left dbl_mul v (Fin 1).

(** Equality of doubles as numbers. *)
Definition dbl_eq (x y : dbl) : Prop :=
  match x, y with
  | Fin a, Fin b => (a == b)%Q
  | PInf, PInf | NInf, NInf | NaN, NaN => True
  | _, _ => False
  end.

(** ** Labelled messages *)

Inductive label : Type := ham | spam.

Definition label_eqb (a b : label) : bool :=
  match a, b with
  | ham, ham | spam, spam => true
  | _, _ => false
  end.

Definition message : Type := (label * string)%type.

Definition mem (w : string) (l : list string) : bool :=
  existsb (String.eqb w) l.

(** [unique(v)]: the first occurrence of every element, in order. *)
Fixpoint unique (l : list string) : list string :=
  match l with
  | [] => []
  | x :: r => x :: filter (fun y => negb (String.eqb x y)) (unique r)
  end.

(** [setdiff(x, y)] *)
Definition setdiff (x y : list string) : list string :=
  unique (filter (fun w => negb (mem w y)) x).

Definition sum_Z (l : list Z) : Z := fold_left Z.add l 0%Z.

Definition Zlength_of {A : Type} (l : list A) : Z := Z.of_nat (List.length l).

(** [mean(v)] of a logical vector. *)
Definition mean (v : list bool) : dbl :=
  dbl_div (inject_Z (sum_Z (map (fun b : bool => if b then 1%Z else 0%Z) v)))
          (inject_Z (Zlength_of v)).

(** The loop [for (m in ms) { v <- c(v, str_split(m, " ")[[1]]) }] started
    with [v <- NULL], followed by [unique]. *)
Definition collect_words (ms : list string) : list string :=
  fold_left (fun v m => v ++ str_split m) ms [].

Definition build_voc (ms : list string) : list string :=
  unique (collect_words ms).

(** [(str_split(sm, " ")[[1]] == w) %>% sum], summed over the messages. *)
Definition count_in_message (w sm : string) : Z :=
  sum_Z (map (fun t => if String.eqb t w then 1%Z else 0%Z) (str_split sm)).

Definition count_word (mes : list string) (w : string) : Z :=
  sum_Z (map (count_in_message w) mes).

(** [tibble(word = voc) %>% mutate(n = map_int(word, f))].  With [voc] still
    [NULL] the tibble has no [word] column and [mutate] stops. *)
Definition count_table (voc mes : list string) : res (list (string * Z)) :=
  match voc with
  | [] => Stop
  | _ => Val (map (fun w => (w, count_word mes w)) voc)
  end.

Record wc_row : Type := mk_row
  { word : string; spam_count : Z; ham_count : Z }.

Definition matches (w : string) (t : list (string * Z)) : list (string * Z) :=
  filter (fun r => String.eqb (fst r) w) t.

(** [full_join(x, y, by = "word")]: the rows of [x] with their matches in
    [y], then the rows of [y] without a match in [x]. *)
Definition full_join (x y : list (string * Z))
  : list (string * option Z * option Z) :=
  flat_map (fun r =>
              match matches (fst r) y with
              | [] => [(fst r, Some (snd r), None)]
              | ms => map (fun m => (fst r, Some (snd r), Some (snd m))) ms
              end) x
  ++ map (fun r => (fst r, None, Some (snd r)))
         (filter (fun r => negb (mem (fst r) (map fst x))) y).

(** [ifelse(is.na(n), 0, n)] *)
Definition na_to_zero (n : option Z) : Z :=
  match n with
  | None => 0%Z
  | Some k => k
  end.

Definition fill_row (r : string * option Z * option Z) : wc_row :=
  mk_row (fst (fst r)) (na_to_zero (snd (fst r))) (na_to_zero (snd r)).

(** [ifelse(test, "spam", "ham")] *)
Definition ifelse_label (test : option bool) : option label :=
  match test with
  | None => None
  | Some true => Some spam
  | Some false => Some ham
  end.

(** [map] with a function that may stop. *)
Fixpoint map_res {A B : Type} (f : A -> res B) (l : list A) : res (list B) :=
  match l with
  | [] => Val []
  | a :: r => b <- f a ;; bs <- map_res f r ;; Val (b :: bs)
  end.

(** ** Confusion table and accuracy *)

(** [table(x, y)]: the levels of each margin are its distinct values that are
    not [NA], sorted ([ham] before [spam]); a pair with an [NA] is not
    counted. *)
Record contingency : Type := mk_table
  { row_levels : list label;
    col_levels : list label;
    cell_count : label -> label -> Z }.

Definition opt_label_eqb (a : option label) (b : label) : bool :=
  match a with
  | Some l => label_eqb l b
  | None => false
  end.

Definition occurs (l : label) (v : list (option label)) : bool :=
  existsb (fun x => opt_label_eqb x l) v.

Definition levels (v : list (option label)) : list label :=
  filter (fun l => occurs l v) [ham; spam].

Definition table (x : list label) (y : list (option label)) : contingency :=
  mk_table
    (levels (map Some x))
    (levels y)
    (fun r c =>
       Zlength_of
         (filter (fun p => label_eqb (fst p) r && opt_label_eqb (snd p) c)
                 (combine x y))).

(** [t[i, j]] with indices counted from 1; outside the table the subscript is
    out of bounds. *)
Definition cell (t : contingency) (i j : nat) : res Z :=
  match nth_error (row_levels t) (pred i),
        nth_error (col_levels t) (pred j) with
  | Some r, Some c => Val (cell_count t r c)
  | _, _ => Stop
  end.

(** [confusion <- table(d$label, d$prediction)] followed by
    [(confusion[1,1] + confusion[2,2]) / nrow(d)]. *)
Definition accuracy (d : list (label * option label)) : res dbl :=
  let confusion := table (map fst d) (map snd d) in
  a <- cell confusion 1 1 ;;
  b <- cell confusion 2 2 ;;
  Val (dbl_div (inject_Z (a + b)) (inject_Z (Zlength_of d))).

(** ** Training and classification *)

Section Filter.

Variable spam_train : list message.

Definition tidy_train : list message :=
  map (fun r => (fst r, normalize (snd r))) spam_train.

Definition messages : list string := map snd tidy_train.

Definition vocabulary : list string := build_voc messages.

Definition class_mes (c : label) : list string :=
  map snd (filter (fun r => label_eqb (fst r) c) tidy_train).

Definition spam_mes : list string := class_mes spam.
Definition spam_voc : list string := build_voc spam_mes.
Definition n_spam_voc : Z := Zlength_of spam_voc.

Definition ham_mes : list string := class_mes ham.
Definition ham_voc : list string := build_voc ham_mes.
Definition n_ham_voc : Z := Zlength_of ham_voc.

Definition n_vocab : Z := Zlength_of vocabulary.

Definition p_spam : dbl :=
  mean (map (fun r => label_eqb (fst r) spam) tidy_train).
Definition p_ham : dbl :=
  mean (map (fun r => label_eqb (fst r) ham) tidy_train).

Definition spam_counts : res (list (string * Z)) :=
  count_table spam_voc spam_mes.
Definition ham_counts : res (list (string * Z)) :=
  count_table ham_voc ham_mes.

Definition word_counts : res (list wc_row) :=
  sc <- spam_counts ;;
  hc <- ham_counts ;;
  Val (map fill_row (full_join sc hc)).

(** The two columns added by [mutate] in [classify] and in the tuning loop. *)
Definition spam_prob (alpha : Q) (r : wc_row) : dbl :=
  dbl_div (inject_Z (spam_count r) + alpha)
          (inject_Z n_spam_voc + alpha * inject_Z n_vocab).

Definition ham_prob (alpha : Q) (r : wc_row) : dbl :=
  dbl_div (inject_Z (ham_count r) + alpha)
          (inject_Z n_ham_voc + alpha * inject_Z n_vocab).

(** The rows of [present_probs] before [pivot_longer], as pairs
    [(spam_prob, ham_prob)]: the rows of [word_counts] whose word is in the
    message, then one row of ones for every word of [new_words]. *)
Definition prob_rows (wc : list wc_row) (words : list string) (alpha : Q)
  : list (dbl * dbl) :=
  let new_words := setdiff vocabulary words in
  let new_word_probs := map (fun _ : string => (Fin 1, Fin 1)) new_words in
  map (fun r => (spam_prob alpha r, ham_prob alpha r))
      (filter (fun r => mem (word r) words) wc)
  ++ new_word_probs.

(** [p_spam_given_message] and [p_ham_given_message].  (A table without any
    row would have no group to summarise; [prob_rows_not_nil] shows that
    there is a row as soon as [word_counts] exists.) *)
Definition scores (wc : list wc_row) (words : list string) (alpha : Q)
  : dbl * dbl :=
  let rows := prob_rows wc words alpha in
  (dbl_mul p_spam (prod (map fst rows)), dbl_mul p_ham (prod (map snd rows))).

Definition score_spam (msg : string) (alpha : Q) : res dbl :=
  wc <- word_counts ;; Val (fst (scores wc (str_split (normalize msg)) alpha)).

Definition score_ham (msg : string) (alpha : Q) : res dbl :=
  wc <- word_counts ;; Val (snd (scores wc (str_split (normalize msg)) alpha)).

Definition classify (msg : string) (alpha : Q) : res (option label) :=
  let clean_message := normalize msg in
  let words := str_split clean_message in
  wc <- word_counts ;;
  let s := scores wc words alpha in
  Val (ifelse_label (dbl_ge (fst s) (snd s))).

(** [d %>% mutate(prediction = map_chr(sms, function(m) classify(m, alpha)))],
    kept as the pairs of label and prediction. *)
Definition predict (d : list message) (alpha : Q)
  : res (list (label * option label)) :=
  map_res (fun r => p <- classify (snd r) alpha ;; Val (fst r, p)) d.

(** Accuracy on the training set: [classify] is applied to the cleaned
    messages with its default [alpha = 1]. *)
Definition train_accuracy : res dbl :=
  final_train <- predict tidy_train 1 ;; accuracy final_train.

(** One turn of the tuning loop, for one [alpha].  (The table [cv_probs] that
    the loop also computes is not read afterwards.) *)
Definition cv_step (spam_cv : list message) (cv_accuracy : res (list dbl))
  (alpha : Q) : res (list dbl) :=
  accs <- cv_accuracy ;;
  cv <- predict spam_cv alpha ;;
  acc <- accuracy cv ;;
  Val (accs ++ [acc]).

(** The tuning loop and the tibble of [alpha] and [accuracy] that ends it. *)
Definition tune (alpha_grid : list Q) (spam_cv : list message)
  : res (list (Q * dbl)) :=
  cv_accuracy <- fold_left (cv_step spam_cv) alpha_grid (Val []) ;;
  Val (combine alpha_grid cv_accuracy).

End Filter.

(** ** Definitions used to state the properties *)

(** Every character of [s] satisfies [p]. *)
Fixpoint str_all (p : ascii -> bool) (s : string) : bool :=
  match s with
  | EmptyString => true
  | String c r => p c && str_all p r
  end.

(** The strings that [str_replace_all(s, "\\s+", " ")] leaves alone: every
    white-space character is a single space that follows no other one
    ([prev] tells that the previous character was white space). *)
Fixpoint squeezed (prev : bool) (s : string) : bool :=
  match s with
  | EmptyString => true
  | String c r =>
      if Chars.is_space c
      then Ascii.eqb c Chars.space && negb prev && squeezed true r
      else squeezed false r
  end.

(** A character that none of the five cleaning steps changes or removes. *)
Definition clean_char (c : ascii) : bool :=
  Ascii.eqb (Chars.lower c) c && negb (Chars.is_punct c)
  && negb (Chars.is_special c) && negb (Chars.is_digit c).

(** Frequency of a word as the specification words it: the number of token
    slots equal to [w] among all the tokens of the messages of a class. *)
Definition token_slots (mes : list string) (w : string) : Z :=
  Z.of_nat (count_occ string_dec (flat_map str_split mes) w).

(** Number of messages of a class that contain [w] at least once. *)
Definition messages_containing (mes : list string) (w : string) : Z :=
  Zlength_of (filter (fun m => mem w (str_split m)) mes).


(** Both labels occur among the true labels and among the predictions: the
    confusion table has two rows and two columns. *)
Definition two_by_two (d : list (label * option label)) : bool :=
  occurs ham (map Some (map fst d)) && occurs spam (map Some (map fst d))
  && occurs ham (map snd d) && occurs spam (map snd d).

(** Number of predictions that match the label exactly. *)
Definition correct (d : list (label * option label)) : Z :=
  Zlength_of (filter (fun p => opt_label_eqb (snd p) (fst p)) d).

(** The accuracy of one candidate of the tuning loop. *)
Definition cv_accuracy_at (spam_train spam_cv : list message) (alpha : Q)
  : res dbl :=
  cv <- predict spam_train spam_cv alpha ;; accuracy cv.

(** The confusion table of one candidate is 2-by-2. *)
Definition cv_table_ok (spam_train spam_cv : list message) (alpha : Q) : bool :=
  match predict spam_train spam_cv alpha with
  | Stop => false
  | Val cv => two_by_two cv
  end.

(** The smoothed estimate as the specification writes it:
    [(count(w, c) + alpha) / (N_c_vocab + alpha * N_vocab)]. *)
Definition laplace (count n_c_vocab n_vocabulary : Z) (alpha : Q) : Q :=
  ((inject_Z count + alpha)
   / (inject_Z n_c_vocab + alpha * inject_Z n_vocabulary))%Q.

(** The words of the joined table, in its order of rows. *)
Definition joined_words (spam_train : list message) : list string :=
  spam_voc spam_train
  ++ filter (fun w => negb (mem w (spam_voc spam_train))) (ham_voc spam_train).

(** [trim_left] leaves a string that starts with no white space. *)
Definition left_trimmed (s : string) : bool :=
  match s with
  | EmptyString => true
  | String c _ => negb (Chars.is_wspace c)
  end.

(** Three spam tokens of one word, and one ham word. *)
Definition repeated_train : list message := [(spam, "a a a"); (ham, "b")].

(** One word shared by one spam and one ham message. *)
Definition shared_train : list message := [(spam, "a"); (ham, "a")].

Definition count_label (c : label) (d : list message) : Z :=
  Zlength_of (filter (fun r => label_eqb (fst r) c) d).

(** The training set of the end-to-end scenario. *)
Definition scenario_train : list message :=
  [(ham, "Hello how are you"); (spam, "WIN money now");
   (ham, "See you tomorrow")].

(** The rows of the joined table that [filter(word %in% words)] keeps. *)
Definition present_rows (wc : list wc_row) (words : list string)
  : list wc_row :=
  filter (fun r => mem (word r) words) wc.

(** The words of the ham vocabulary that no spam message has. *)
Definition ham_only (spam_train : list message) : list string :=
  filter (fun w => negb (mem w (spam_voc spam_train))) (ham_voc spam_train).

(** * The evaluator of numerical expressions

    Shallow embedding of the Python notebook
    [Evaluating Numerical Expressions.ipynb].  A Python string is modelled as
    the R strings above; a raised exception is [Stop]. *)

Module Evaluator.

(** [str.isspace] on the code points below 256. *)
Definition is_space (c : ascii) : bool :=
  Chars.between 9 13 c || Chars.between 28 31 c
  || Chars.one_of [32; 133; 160]%N c.

(** [tokenize(string)], that is [string.split()]: the maximal runs of
    characters that are not white space. *)
Fixpoint tokenize (s : string) : list string :=
  match s with
  | EmptyString => []
  | String c r =>
      if is_space c then tokenize r
      else match r with
           | EmptyString => [String c EmptyString]
           | String d _ =>
               if is_space d then String c EmptyString :: tokenize r
               else match tokenize r with
                    | t :: ts => String c t :: ts
                    | [] => [String c EmptyString]
                    end
           end
  end.

(** [" ".join(l)] *)
Fixpoint join (l : list string) : string :=
  match l with
  | [] => EmptyString
  | t :: r =>
      match r with
      | [] => t
      | _ => String.append t (String Chars.space (join r))
      end
  end.

(** [linked_list.py] is not among the sources.  What [Stack] takes from its
    base class is an interface: the constructor, [append] and [__len__].  The
    list is given by the data of its nodes counted from the tail, and the
    interface comes with the laws of a list that grows at its tail. *)
Class LinkedList : Type :=
  { ll_new : forall A : Type, list A;
    ll_append : forall A : Type, list A -> A -> list A;
    ll_len : forall A : Type, list A -> nat;
    ll_new_nil : forall A : Type, ll_new A = [];
    ll_append_cons :
      forall (A : Type) (l : list A) (x : A), ll_append A l x = x :: l;
    ll_len_length :
      forall (A : Type) (l : list A), ll_len A l = List.length l }.

(** The usual doubly linked list, as the sequence of its data. *)
#[export] Instance sequence_LinkedList : LinkedList :=
  { ll_new := fun A => [];
    ll_append := fun A l x => x :: l;
    ll_len := fun A l => List.length l;
    ll_new_nil := fun A => eq_refl;
    ll_append_cons := fun A l x => eq_refl;
    ll_len_length := fun A l => eq_refl }.

(** ** The methods of [Stack] on linked nodes

    [peek] and [pop] read and write the fields [head], [tail] and [length]
    of the list and [data], [next] and [prev] of its nodes. *)
Module Nodes.
Section Nodes.

Variable A : Type.

Definition addr : Type := nat.

Record node : Type := mk_node
  { data : A; next : option addr; prev : option addr }.

Record linked : Type := mk_linked
  { heap : addr -> node;
    head : option addr;
    tail : option addr;
    length : Z }.

(** [n.next = v] for the node at [a]. *)
Definition set_next (h : addr -> node) (a : addr) (v : option addr)
  : addr -> node :=
  fun b => if Nat.eqb b a then mk_node (data (h b)) v (prev (h b)) else h b.

(** [return self.tail.data]; without a tail node the attribute access
    raises. *)
Definition peek (self : linked) : res A :=
  match tail self with
  | None => Stop
  | Some t => Val (data (heap self t))
  end.

Definition pop (self : linked) : res (A * linked) :=
  match tail self with
  | None => Stop
  | Some t =>
      let ret := data (heap self t) in
      if (length self =? 1)%Z
      then Val (ret, mk_linked (heap self) None None (length self - 1))
      else match prev (heap self t) with
           | None => Stop
           | Some p =>
               Val (ret, mk_linked (set_next (heap self) p None) (head self)
                           (Some p) (length self - 1))
           end
  end.

(** The nodes at [path], counted from the tail, are linked: the first has
    [nxt] as its [next], and the [prev] of each is the one that follows, or
    [None] for the last. *)
Fixpoint linked_from (h : addr -> node) (nxt : option addr)
  (path : list addr) : Prop :=
  match path with
  | [] => True
  | a :: r =>
      next (h a) = nxt /\ prev (h a) = hd_error r
      /\ linked_from h (Some a) r
  end.

(** [self] is a well-formed list whose nodes, from the tail to the head, are
    at the addresses [path] and hold the data [l]. *)
Definition repr (self : linked) (path : list addr) (l : list A) : Prop :=
  length self = Z.of_nat (List.length path)
  /\ NoDup path
  /\ map (fun a => data (heap self a)) path = l
  /\ tail self = hd_error path
  /\ head self = hd_error (rev path)
  /\ linked_from (heap self) None path.

End Nodes.
End Nodes.

(** ** The methods of [Stack] on the sequence of the data *)

Section Stack.

Context {L : LinkedList}.
Context {A : Type}.

(** [self.append(data)] *)
Definition push (stack : list A) (x : A) : list A := ll_append A stack x.

Definition peek (stack : list A) : res A :=
  match stack with
  | [] => Stop
  | x :: _ => Val x
  end.

Definition pop (stack : list A) : res (A * list A) :=
  match stack with
  | [] => Stop
  | x :: r => Val (x, r)
  end.

End Stack.

(** [precedence]: the dictionary, with [None] for a key that it lacks. *)
Definition precedence (token : string) : option nat :=
  if String.eqb token "+" then Some 1%nat
  else if String.eqb token "-" then Some 1%nat
  else if String.eqb token "*" then Some 2%nat
  else if String.eqb token "/" then Some 2%nat
  else if String.eqb token "**" then Some 3%nat
  else None.

Section Evaluate.

Context {L : LinkedList}.

(** The values on the stack of [evaluate_postfix], with [float(token)] and
    the five operators of Python on them; each may raise. *)
Variable num : Type.
Variable float : string -> res num.
Variables py_sub py_add py_mul py_div py_pow : num -> num -> res num.

(** The common shape of the five [process_] functions: [top] is popped
    first, and the operator is applied to [second_to_top] and [top]. *)
Definition process_binary (f : num -> num -> res num) (stack : list num)
  : res (list num) :=
  a <- pop stack ;;
  b <- pop (snd a) ;;
  result <- f (fst b) (fst a) ;;
  Val (push (snd b) result).

Definition process_minus : list num -> res (list num) := process_binary py_sub.
Definition process_plus : list num -> res (list num) := process_binary py_add.
Definition process_times : list num -> res (list num) := process_binary py_mul.
Definition process_divide : list num -> res (list num) :=
  process_binary py_div.
Definition process_pow : list num -> res (list num) := process_binary py_pow.

(** The body of the loop of [evaluate_postfix]. *)
Definition postfix_step (stack : list num) (token : string)
  : res (list num) :=
  if String.eqb token "+" then process_plus stack
  else if String.eqb token "-" then process_minus stack
  else if String.eqb token "*" then process_times stack
  else if String.eqb token "/" then process_divide stack
  else if String.eqb token "**" then process_pow stack
  else x <- float token ;; Val (push stack x).

Fixpoint postfix_loop (tokens : list string) (stack : list num)
  : res (list num) :=
  match tokens with
  | [] => Val stack
  | token :: r => s <- postfix_step stack token ;; postfix_loop r s
  end.

Definition evaluate_postfix (expression : string) : res num :=
  let tokens := tokenize expression in
  stack <- postfix_loop tokens (ll_new num) ;;
  a <- pop stack ;;
  Val (fst a).

Definition process_opening_parenthesis (stack : list string) : list string :=
  push stack "(".

(** The loop pops until the top is an opening parenthesis, which the last
    statement pops; [peek] raises on a stack that has none. *)
Fixpoint process_closing_parenthesis (stack postfix : list string)
  : res (list string * list string) :=
  match stack with
  | [] => Stop
  | top :: rest =>
      if String.eqb top "(" then Val (rest, postfix)
      else process_closing_parenthesis rest (postfix ++ [top])
  end.

(** The loop pops while the stack is not empty and its top is a key of
    [precedence] with a precedence at least that of [operator], whose own
    lookup raises when it is not a key. *)
Fixpoint process_operator (stack postfix : list string) (operator : string)
  : res (list string * list string) :=
  if (0 <? ll_len string stack)%nat
  then match stack with
       | [] => Stop
       | top :: rest =>
           match precedence top with
           | None => Val (push stack operator, postfix)
           | Some pt =>
               match precedence operator with
               | None => Stop
               | Some po =>
                   if (po <=? pt)%nat
                   then process_operator rest (postfix ++ [top]) operator
                   else Val (push stack operator, postfix)
               end
           end
       end
  else Val (push stack operator, postfix).

Definition process_number (postfix : list string) (number : string)
  : list string :=
  postfix ++ [number].

(** The body of the first loop of [infix_to_postfix]. *)
Definition infix_step (st : list string * list string) (token : string)
  : res (list string * list string) :=
  let stack := fst st in
  let postfix := snd st in
  if String.eqb token "(" then Val (process_opening_parenthesis stack, postfix)
  else if String.eqb token ")" then process_closing_parenthesis stack postfix
  else match precedence token with
       | Some _ => process_operator stack postfix token
       | None => Val (stack, process_number postfix token)
       end.

Fixpoint infix_loop (tokens : list string) (st : list string * list string)
  : res (list string * list string) :=
  match tokens with
  | [] => Val st
  | token :: r => st' <- infix_step st token ;; infix_loop r st'
  end.

(** [while len(stack) > 0: postfix.append(stack.pop())] *)
Fixpoint pop_all (stack postfix : list string) : res (list string) :=
  if (0 <? ll_len string stack)%nat
  then match stack with
       | [] => Stop
       | top :: rest => pop_all rest (postfix ++ [top])
       end
  else Val postfix.

Definition infix_to_postfix (expression : string) : res string :=
  let tokens := tokenize expression in
  st <- infix_loop tokens (ll_new string, []) ;;
  postfix <- pop_all (fst st) (snd st) ;;
  Val (join postfix).

Definition evaluate (expression : string) : res num :=
  postfix_expression <- infix_to_postfix expression ;;
  evaluate_postfix postfix_expression.

End Evaluate.

(** ** Expressions, to state what the evaluator computes *)

Inductive op : Type := Plus | Minus | Times | Divide | Power.

Definition symbol (o : op) : string :=
  match o with
  | Plus => "+"
  | Minus => "-"
  | Times => "*"
  | Divide => "/"
  | Power => "**"
  end.

Definition prec (o : op) : nat :=
  match o with
  | Plus | Minus => 1
  | Times | Divide => 2
  | Power => 3
  end.

(** An expression: an operand token, a binary operation, or an expression
    between parentheses. *)
Inductive expr : Type :=
| Num (t : string)
| Bin (o : op) (l r : expr)
| Paren (e : expr).

(** A token as [tokenize] makes them: not empty and without white space. *)
Definition word_token (t : string) : bool :=
  negb (String.eqb t EmptyString)
  && str_all (fun c => negb (is_space c)) t.

(** A token that [infix_to_postfix] treats as a number. *)
Definition operand (t : string) : bool :=
  word_token t && negb (String.eqb t "(") && negb (String.eqb t ")")
  && match precedence t with
     | None => true
     | Some _ => false
     end.

Fixpoint operands_ok (e : expr) : bool :=
  match e with
  | Num t => operand t
  | Bin _ l r => operands_ok l && operands_ok r
  | Paren e => operands_ok e
  end.

(** The tokens of the expression in infix and in postfix notation. *)
Fixpoint infix (e : expr) : list string :=
  match e with
  | Num t => [t]
  | Bin o l r => infix l ++ symbol o :: infix r
  | Paren e => "(" :: infix e ++ [")"]
  end.

Fixpoint postfix (e : expr) : list string :=
  match e with
  | Num t => [t]
  | Bin o l r => postfix l ++ postfix r ++ [symbol o]
  | Paren e => postfix e
  end.

(** The precedence at which an expression binds: that of its operator, and
    above every operator for an operand or a parenthesis. *)
Definition level (e : expr) : nat :=
  match e with
  | Bin o _ _ => prec o
  | _ => 4
  end.

(** The expressions that the infix notation reads without ambiguity when
    operators of equal precedence associate to the left: the left operand
    binds at least as tightly as the operator, the right one more tightly. *)
Fixpoint left_assoc (e : expr) : bool :=
  match e with
  | Num _ => true
  | Bin o l r =>
      left_assoc l && left_assoc r
      && (prec o <=? level l)%nat && (prec o <? level r)%nat
  | Paren e => left_assoc e
  end.

Section Value.

Variable num : Type.
Variable float : string -> res num.
Variables py_sub py_add py_mul py_div py_pow : num -> num -> res num.

Definition apply_op (o : op) : num -> num -> res num :=
  match o with
  | Plus => py_add
  | Minus => py_sub
  | Times => py_mul
  | Divide => py_div
  | Power => py_pow
  end.

(** The value of an expression: operands from left to right, then the
    operator. *)
Fixpoint value (e : expr) : res num :=
  match e with
  | Num t => float t
  | Bin o l r => a <- value l ;; b <- value r ;; apply_op o a b
  | Paren e => value e
  end.

End Value.

(** Is the token one of the five operators? *)
Definition is_operator (t : string) : bool :=
  match precedence t with
  | Some _ => true
  | None => false
  end.

(** A token that the loop of [infix_to_postfix] sends to the output: neither
    a parenthesis nor an operator. *)
Definition is_number (t : string) : bool :=
  negb (String.eqb t "(") && negb (String.eqb t ")") && negb (is_operator t).

(** The top of the stack is no operator of precedence [lv] or more: the loop
    of [process_operator] stops there for an operator of precedence [lv]. *)
Definition binds_below (stack : list string) (lv : nat) : Prop :=
  match stack with
  | [] => True
  | top :: _ =>
      match precedence top with
      | None => True
      | Some q => (q < lv)%nat
      end
  end.

(** Operators whose precedence is [lv] or more. *)
Definition binds_from (lv : nat) (t : string) : Prop :=
  exists q, precedence t = Some q /\ (lv <= q)%nat.

(** Number of occurrences of a token. *)
Definition count (t : string) (l : list string) : nat :=
  count_occ string_dec l t.

(** An arithmetic on the rationals to run the evaluator: a token of decimal
    digits is its number, a division by zero raises, and a power needs a
    whole exponent. *)
Fixpoint digits (acc : Z) (s : string) : res Z :=
  match s with
  | EmptyString => Val acc
  | String c r =>
      if Chars.is_digit c
      then digits (10 * acc + Z.of_N (Chars.code c) - 48)%Z r
      else Stop
  end.

Definition q_float (t : string) : res Q :=
  match t with
  | EmptyString => Stop
  | _ => n <- digits 0 t ;; Val (inject_Z n)
  end.

Definition q_sub (a b : Q) : res Q := Val (a - b)%Q.
Definition q_add (a b : Q) : res Q := Val (a + b)%Q.
Definition q_mul (a b : Q) : res Q := Val (a * b)%Q.
Definition q_div (a b : Q) : res Q :=
  if Qeq_bool b 0 then Stop else Val (Qred (a / b))%Q.
Definition q_pow (a b : Q) : res Q :=
  if Pos.eqb (Qden (Qred b)) 1 then Val (Qred (Qpower a (Qnum (Qred b))))
  else Stop.

End Evaluator.

(** * The split into training, cross-validation and test indices

    The chunk [traintest] of the spam filter notebook.  [sample] draws at
    random: its result, [train_indices], is a parameter. *)

Module Split.

(** [FLT_EPSILON], the fuzz that R adds to the length of [from:to]. *)
Definition FLT_EPSILON : Q := 1 # 8388608.

(** Truncation toward zero, as R does it for a double that is used as a
    length or as an index. *)
Definition trunc (x : Q) : Z :=
  if Qle_bool 0 x then Qfloor x else (- Qfloor (- x))%Z.

(** [from:to]: from [from] in steps of 1, upward or downward, for
    [|to - from| + 1 + FLT_EPSILON] values, truncated. *)
Definition colon (from to : Q) : list Q :=
  let r := Qabs (to - from) in
  let n := Z.to_nat (trunc (r + 1 + FLT_EPSILON)) in
  map (fun i => if Qle_bool from to then from + inject_Z (Z.of_nat i)
                else from - inject_Z (Z.of_nat i))
      (seq 0 n).

(** [x[i]] for a vector [i] of doubles.  The indices are truncated.  Without
    a negative one, a 0 selects nothing and an index beyond the end selects
    [NA]; without a positive one, the positions named by the negative ones
    are left out; a mix of both is an error. *)
Definition subscript (x : list Z) (i : list Q) : res (list (option Z)) :=
  let ks := map trunc i in
  if existsb (fun k => (k <? 0)%Z) ks
  then if existsb (fun k => (0 <? k)%Z) ks
       then Stop
       else Val (map (fun p => Some (snd p))
                   (filter (fun p =>
                              negb (existsb (Z.eqb (- Z.of_nat (fst p))) ks))
                      (combine (seq 1 (List.length x)) x)))
  else Val (flat_map (fun k => if (k =? 0)%Z then []
                               else [nth_error x (Z.to_nat k - 1)]) ks).

Definition mem_int (k : Z) (l : list Z) : bool := existsb (Z.eqb k) l.

Fixpoint unique_int (l : list Z) : list Z :=
  match l with
  | [] => []
  | x :: r => x :: filter (fun y => negb (Z.eqb x y)) (unique_int r)
  end.

(** [setdiff(x, y)] on whole numbers. *)
Definition setdiff_int (x y : list Z) : list Z :=
  unique_int (filter (fun k => negb (mem_int k y)) x).

(** [1:n] for the number [n] of rows; its values are whole. *)
Definition one_to (n : Z) : list Z := map trunc (colon 1 (inject_Z n)).

Section Indices.

(** [n <- nrow(spam)] and the result of [sample(1:n, ...)]. *)
Variable n : Z.
Variable train_indices : list Z.

Definition remaining_indices : list Z := setdiff_int (one_to n) train_indices.

Definition half_length : Q := inject_Z (Zlength_of remaining_indices) / 2.

Definition cv_indices : res (list (option Z)) :=
  subscript remaining_indices (colon 1 half_length).

Definition test_indices : res (list (option Z)) :=
  subscript remaining_indices
    (colon (half_length + 1) (inject_Z (Zlength_of remaining_indices))).

End Indices.

End Split.

(** * Properties *)

(** Splits a hypothesis [H] that states a boolean conjunction. *)
Ltac andb_hyp H := repeat (apply andb_true_iff in H; destruct H as [H ?]).

(** ** Characters *)

Lemma lower_idem (c : ascii) : Chars.lower (Chars.lower c) = Chars.lower c.
Proof.
  destruct c as [[] [] [] [] [] [] [] []]; reflexivity.
Qed.

Lemma clean_space : clean_char Chars.space = true.
Proof. reflexivity. Qed.

Lemma space_is_space (c : ascii) :
  Ascii.eqb c Chars.space = true -> Chars.is_space c = true.
Proof.
  intros H. apply Ascii.eqb_eq in H. subst c. reflexivity.
Qed.

(** ** Text normalizer *)

Lemma str_all_impl (p q : ascii -> bool) (s : string) :
  (forall c, p c = true -> q c = true) ->
  str_all p s = true -> str_all q s = true.
Proof.
  intros Hpq. induction s as [|c r IH]; simpl; auto.
  intros H. apply andb_true_iff in H. destruct H as [Hc Hr].
  rewrite (Hpq c Hc). simpl. auto.
Qed.

Lemma str_remove_id (p : ascii -> bool) (s : string) :
  str_all (fun c => negb (p c)) s = true -> str_remove p s = s.
Proof.
  induction s as [|c r IH]; simpl; auto.
  intros H. apply andb_true_iff in H. destruct H as [Hc Hr].
  apply negb_true_iff in Hc. rewrite Hc. f_equal. auto.
Qed.

Lemma str_remove_all (p q : ascii -> bool) (s : string) :
  str_all q s = true -> str_all q (str_remove p s) = true.
Proof.
  induction s as [|c r IH]; simpl; auto.
  intros H. apply andb_true_iff in H. destruct H as [Hc Hr].
  destruct (p c); simpl; auto. rewrite Hc. simpl. auto.
Qed.

Lemma str_remove_gone (p : ascii -> bool) (s : string) :
  str_all (fun c => negb (p c)) (str_remove p s) = true.
Proof.
  induction s as [|c r IH]; simpl; auto.
  destruct (p c) eqn:E; simpl; auto. rewrite E. simpl. auto.
Qed.

Lemma str_to_lower_id (s : string) :
  str_all (fun c => Ascii.eqb (Chars.lower c) c) s = true ->
  str_to_lower s = s.
Proof.
  unfold str_to_lower. induction s as [|c r IH]; simpl; auto.
  intros H. apply andb_true_iff in H. destruct H as [Hc Hr].
  apply Ascii.eqb_eq in Hc. rewrite Hc. f_equal. auto.
Qed.

Lemma str_to_lower_fixed (s : string) :
  str_all (fun c => Ascii.eqb (Chars.lower c) c) (str_to_lower s) = true.
Proof.
  unfold str_to_lower. induction s as [|c r IH]; simpl; auto.
  rewrite lower_idem, Ascii.eqb_refl. simpl. auto.
Qed.

Lemma collapse_all (p : ascii -> bool) (b : bool) (s : string) :
  p Chars.space = true ->
  str_all p s = true -> str_all p (collapse b s) = true.
Proof.
  intros Hsp. revert b. induction s as [|c r IH]; simpl; auto.
  intros b H. apply andb_true_iff in H. destruct H as [Hc Hr].
  destruct (Chars.is_space c).
  - destruct b; simpl; auto. rewrite Hsp. simpl. auto.
  - simpl. rewrite Hc. simpl. auto.
Qed.

Lemma trim_left_all (p : ascii -> bool) (s : string) :
  str_all p s = true -> str_all p (trim_left s) = true.
Proof.
  induction s as [|c r IH]; simpl; auto.
  intros H. destruct (Chars.is_wspace c); simpl; auto.
  apply andb_true_iff in H. destruct H as [Hc Hr]. auto.
Qed.

Lemma trim_right_all (p : ascii -> bool) (s : string) :
  str_all p s = true -> str_all p (trim_right s) = true.
Proof.
  induction s as [|c r IH]; simpl; auto.
  intros H. apply andb_true_iff in H. destruct H as [Hc Hr].
  specialize (IH Hr). destruct (trim_right r) as [|d r'].
  - destruct (Chars.is_wspace c); simpl; auto. rewrite Hc. reflexivity.
  - simpl. rewrite Hc. simpl. exact IH.
Qed.

Lemma str_squish_all (p : ascii -> bool) (s : string) :
  p Chars.space = true ->
  str_all p s = true -> str_all p (str_squish s) = true.
Proof.
  intros Hsp H. unfold str_squish, stri_trim_both.
  apply trim_right_all, trim_left_all, collapse_all; assumption.
Qed.

Lemma squeezed_collapse (b : bool) (s : string) :
  squeezed b (collapse b s) = true.
Proof.
  revert b. induction s as [|c r IH]; intros b; simpl; auto.
  destruct (Chars.is_space c) eqn:E.
  - destruct b; simpl; auto; rewrite (IH true); reflexivity.
  - simpl. rewrite E. apply IH.
Qed.

Lemma collapse_squeezed (b : bool) (s : string) :
  squeezed b s = true -> collapse b s = s.
Proof.
  revert b. induction s as [|c r IH]; intros b; simpl; auto.
  destruct (Chars.is_space c).
  - intros H. apply andb_true_iff in H. destruct H as [H Hr].
    apply andb_true_iff in H. destruct H as [Hc Hb].
    apply negb_true_iff in Hb. apply Ascii.eqb_eq in Hc. subst b c.
    f_equal. auto.
  - intros H. f_equal. auto.
Qed.

Lemma squeezed_weaken (s : string) :
  squeezed true s = true -> squeezed false s = true.
Proof.
  destruct s as [|c r]; simpl; auto.
  destruct (Chars.is_space c); auto.
  all: try (rewrite andb_false_r; discriminate).
Qed.

Lemma squeezed_tail (b : bool) (c : ascii) (r : string) :
  squeezed b (String c r) = true -> squeezed false r = true.
Proof.
  simpl. destruct (Chars.is_space c); auto.
  intros H. apply andb_true_iff in H. apply squeezed_weaken, H.
Qed.

Lemma squeezed_trim_left (s : string) :
  squeezed false s = true -> squeezed false (trim_left s) = true.
Proof.
  induction s as [|c r IH]; auto.
  intros H. simpl. destruct (Chars.is_wspace c); auto.
  apply IH. exact (squeezed_tail _ _ _ H).
Qed.

Lemma squeezed_trim_right (b : bool) (s : string) :
  squeezed b s = true -> squeezed b (trim_right s) = true.
Proof.
  revert b. induction s as [|c r IH]; intros b; auto.
  simpl. destruct (trim_right r) as [|d r'] eqn:E.
  - destruct (Chars.is_wspace c); auto.
    simpl. destruct (Chars.is_space c); auto.
    intros H. apply andb_true_iff in H. destruct H as [H _]. rewrite H. auto.
  - change (squeezed b (String c (String d r')))
      with (if Chars.is_space c
            then Ascii.eqb c Chars.space && negb b
                 && squeezed true (String d r')
            else squeezed false (String d r')).
    destruct (Chars.is_space c).
    + intros H. apply andb_true_iff in H. destruct H as [H Hr].
      rewrite H. apply (IH true Hr).
    + apply (IH false).
Qed.

Lemma trim_right_idem (s : string) : trim_right (trim_right s) = trim_right s.
Proof.
  induction s as [|c r IH]; auto.
  simpl. destruct (trim_right r) as [|d r'] eqn:E.
  - destruct (Chars.is_wspace c) eqn:W; auto. simpl. rewrite W. reflexivity.
  - change (trim_right (String c (String d r')))
      with (match trim_right (String d r') with
            | EmptyString => if Chars.is_wspace c then EmptyString
                             else String c EmptyString
            | r0 => String c r0
            end).
    rewrite IH. reflexivity.
Qed.

Lemma trim_left_trimmed (s : string) : left_trimmed (trim_left s) = true.
Proof.
  induction s as [|c r IH]; auto.
  simpl. destruct (Chars.is_wspace c) eqn:W; auto. simpl. rewrite W. auto.
Qed.

Lemma trim_left_id (s : string) : left_trimmed s = true -> trim_left s = s.
Proof.
  destruct s as [|c r]; auto. simpl. intros H.
  apply negb_true_iff in H. rewrite H. reflexivity.
Qed.

Lemma trim_right_left_trimmed (s : string) :
  left_trimmed s = true -> left_trimmed (trim_right s) = true.
Proof.
  destruct s as [|c r]; auto. simpl. intros H.
  destruct (trim_right r); simpl; auto.
  apply negb_true_iff in H. rewrite H. simpl. rewrite H. reflexivity.
Qed.

Lemma stri_trim_both_idem (s : string) :
  stri_trim_both (stri_trim_both s) = stri_trim_both s.
Proof.
  unfold stri_trim_both.
  rewrite (trim_left_id (trim_right (trim_left s))).
  - apply trim_right_idem.
  - apply trim_right_left_trimmed, trim_left_trimmed.
Qed.

Lemma str_squish_squeezed (s : string) : squeezed false (str_squish s) = true.
Proof.
  unfold str_squish, stri_trim_both.
  apply squeezed_trim_right, squeezed_trim_left, squeezed_collapse.
Qed.

Lemma str_squish_idem (s : string) : str_squish (str_squish s) = str_squish s.
Proof.
  unfold str_squish at 1.
  rewrite (collapse_squeezed false _ (str_squish_squeezed s)).
  unfold str_squish. apply stri_trim_both_idem.
Qed.

Lemma normalize_clean (s : string) : str_all clean_char (normalize s) = true.
Proof.
  unfold normalize.
  set (t := str_squish (str_to_lower s)).
  assert (H1 : str_all (fun c => Ascii.eqb (Chars.lower c) c) t = true).
  { apply str_squish_all; [reflexivity | apply str_to_lower_fixed]. }
  set (p := str_remove Chars.is_punct t).
  assert (H2 : str_all (fun c => Ascii.eqb (Chars.lower c) c
                                 && negb (Chars.is_punct c)) p = true).
  { subst p. clear -H1. induction t as [|c r IH]; simpl; auto.
    simpl in H1. apply andb_true_iff in H1. destruct H1 as [Hc Hr].
    destruct (Chars.is_punct c) eqn:E; simpl; auto.
    rewrite Hc, E. simpl. auto. }
  clearbody p. clear t H1.
  set (u := str_remove Chars.is_special p).
  assert (H3 : str_all (fun c => Ascii.eqb (Chars.lower c) c
                                 && negb (Chars.is_punct c)
                                 && negb (Chars.is_special c)) u = true).
  { subst u. clear -H2. induction p as [|c r IH]; simpl; auto.
    simpl in H2. apply andb_true_iff in H2. destruct H2 as [Hc Hr].
    destruct (Chars.is_special c) eqn:E; simpl; auto.
    rewrite Hc, E. simpl. auto. }
  clearbody u. clear p H2.
  induction u as [|c r IH]; simpl; auto.
  simpl in H3. apply andb_true_iff in H3. destruct H3 as [Hc Hr].
  destruct (Chars.is_digit c) eqn:E; simpl; auto.
  unfold clean_char at 1. rewrite Hc, E. simpl. auto.
Qed.

(** On a string of clean characters only the squishing step acts. *)
Lemma normalize_of_clean (t : string) :
  str_all clean_char t = true -> normalize t = str_squish t.
Proof.
  intros H. unfold normalize.
  rewrite (str_to_lower_id t).
  2:{ revert H. apply str_all_impl. unfold clean_char. intros c Hc.
      andb_hyp Hc. exact Hc. }
  assert (Hs : str_all clean_char (str_squish t) = true)
    by (apply str_squish_all; [reflexivity | exact H]).
  rewrite (str_remove_id Chars.is_punct).
  2:{ revert Hs. apply str_all_impl. unfold clean_char. intros c Hc.
      andb_hyp Hc. assumption. }
  rewrite (str_remove_id Chars.is_special).
  2:{ revert Hs. apply str_all_impl. unfold clean_char. intros c Hc.
      andb_hyp Hc. assumption. }
  apply str_remove_id.
  revert Hs. apply str_all_impl. unfold clean_char. intros c Hc.
  andb_hyp Hc. assumption.
Qed.

Example normalize_message :
  normalize "  WIN  a 100$ prize, NOW!! " = "win a $ prize now".
Proof. reflexivity. Qed.

Example str_split_keeps_empty :
  str_split "a  b " = ["a"; EmptyString; "b"; EmptyString].
Proof. reflexivity. Qed.

(** C4, as stated: the cleaning pipeline is not idempotent.  Squishing runs
    before the removals, so the space in front of a removed full stop stays,
    and a second pass trims it. *)
Lemma normalize_not_idempotent :
  normalize (normalize "a .") <> normalize "a .".
Proof. vm_compute. discriminate. Qed.

(** C4, amended: a second pass of the cleaning pipeline only squishes the
    result of the first one, and the result of two passes is a fixed
    point. *)
Theorem normalize_twice (s : string) :
  normalize (normalize s) = str_squish (normalize s)
  /\ normalize (normalize (normalize s)) = normalize (normalize s).
Proof.
  assert (A : normalize (normalize s) = str_squish (normalize s))
    by apply normalize_of_clean, normalize_clean.
  split; [exact A|].
  rewrite A. rewrite normalize_of_clean.
  - apply str_squish_idem.
  - apply str_squish_all; [reflexivity | apply normalize_clean].
Qed.

(** ** Lists of words *)

Lemma mem_In (w : string) (l : list string) : mem w l = true <-> In w l.
Proof.
  unfold mem. rewrite existsb_exists. split.
  - intros [x [Hx E]]. apply String.eqb_eq in E. subst. exact Hx.
  - intros H. exists w. split; [exact H | apply String.eqb_refl].
Qed.

Lemma mem_false (w : string) (l : list string) : mem w l = false <-> ~ In w l.
Proof.
  rewrite <- mem_In. destruct (mem w l); split; intros H;
    try discriminate; try reflexivity; try (now intros H'); now elim H.
Qed.

Lemma unique_In (l : list string) (x : string) : In x (unique l) <-> In x l.
Proof.
  induction l as [|a r IH]; simpl; [tauto|].
  rewrite filter_In, IH, negb_true_iff, String.eqb_neq.
  destruct (string_dec a x); tauto.
Qed.

Lemma unique_NoDup (l : list string) : NoDup (unique l).
Proof.
  induction l as [|a r IH]; simpl; constructor.
  - rewrite filter_In, String.eqb_refl. simpl. intros [_ H]. discriminate.
  - apply NoDup_filter, IH.
Qed.

Lemma unique_nil (l : list string) : unique l = [] <-> l = [].
Proof.
  destruct l; simpl; split; intros H; try reflexivity; discriminate.
Qed.

Lemma fold_app_split (ms : list string) (acc : list string) :
  fold_left (fun v m => v ++ str_split m) ms acc
  = acc ++ flat_map str_split ms.
Proof.
  revert acc. induction ms as [|m r IH]; intros acc; simpl.
  - symmetry. apply app_nil_r.
  - rewrite IH. symmetry. apply app_assoc.
Qed.

Lemma collect_words_flat (ms : list string) :
  collect_words ms = flat_map str_split ms.
Proof. unfold collect_words. rewrite fold_app_split. reflexivity. Qed.

Lemma str_split_not_nil (s : string) : str_split s <> [].
Proof.
  induction s as [|c r IH]; simpl; [discriminate|].
  destruct (Ascii.eqb c Chars.space); [discriminate|].
  destruct (str_split r); discriminate.
Qed.

Lemma build_voc_In (ms : list string) (w : string) :
  In w (build_voc ms) <-> exists m, In m ms /\ In w (str_split m).
Proof.
  unfold build_voc. rewrite unique_In, collect_words_flat. apply in_flat_map.
Qed.

Lemma build_voc_nil (ms : list string) : build_voc ms = [] <-> ms = [].
Proof.
  unfold build_voc. rewrite unique_nil, collect_words_flat.
  destruct ms as [|m r]; simpl; [tauto|].
  split; [|discriminate]. intros H. apply app_eq_nil in H.
  destruct H as [H _]. now apply str_split_not_nil in H.
Qed.

Lemma sum_Z_acc (l : list Z) (a : Z) :
  fold_left Z.add l a = (a + fold_left Z.add l 0)%Z.
Proof.
  revert a. induction l as [|x r IH]; intros a; simpl; [lia|].
  rewrite (IH (a + x)%Z), (IH x). lia.
Qed.

Lemma sum_Z_cons (x : Z) (l : list Z) : sum_Z (x :: l) = (x + sum_Z l)%Z.
Proof. unfold sum_Z. simpl. apply sum_Z_acc. Qed.

Lemma sum_indicator (w : string) (ts : list string) :
  sum_Z (map (fun t => if String.eqb t w then 1%Z else 0%Z) ts)
  = Z.of_nat (count_occ string_dec ts w).
Proof.
  induction ts as [|t r IH]; [reflexivity|].
  cbn [map]. rewrite sum_Z_cons, IH. simpl.
  destruct (string_dec t w) as [E|E].
  - subst. rewrite String.eqb_refl. lia.
  - apply String.eqb_neq in E. rewrite E. lia.
Qed.

(** The nested sums of the notebook count token slots. *)
Lemma count_word_slots (mes : list string) (w : string) :
  count_word mes w = token_slots mes w.
Proof.
  unfold count_word, token_slots.
  induction mes as [|m r IH]; [reflexivity|].
  cbn [map flat_map]. rewrite sum_Z_cons, IH, count_occ_app.
  unfold count_in_message. rewrite sum_indicator. lia.
Qed.

Lemma count_word_nonneg (mes : list string) (w : string) :
  (0 <= count_word mes w)%Z.
Proof. rewrite count_word_slots. unfold token_slots. lia. Qed.

Lemma count_word_pos (mes : list string) (w : string) :
  In w (build_voc mes) <-> (1 <= count_word mes w)%Z.
Proof.
  rewrite count_word_slots. unfold token_slots, build_voc.
  rewrite unique_In, collect_words_flat, (count_occ_In string_dec). lia.
Qed.

Lemma count_word_zero (mes : list string) (w : string) :
  ~ In w (build_voc mes) <-> count_word mes w = 0%Z.
Proof.
  rewrite count_word_pos. pose proof (count_word_nonneg mes w). lia.
Qed.

(** ** The joined table of counts *)

Lemma filter_eqb_NoDup (w : string) (l : list string) :
  NoDup l ->
  filter (fun v => String.eqb v w) l = if mem w l then [w] else [].
Proof.
  induction 1 as [|a r Ha Hr IH]; [reflexivity|].
  cbn [filter mem existsb]. fold (mem w r). rewrite IH.
  rewrite (String.eqb_sym w a).
  destruct (String.eqb a w) eqn:E; simpl; [|reflexivity].
  apply String.eqb_eq in E. subst a.
  apply mem_false in Ha. rewrite Ha. reflexivity.
Qed.

Lemma matches_map (g : string -> Z) (w : string) (voc : list string) :
  matches w (map (fun v => (v, g v)) voc)
  = map (fun v => (v, g v)) (filter (fun v => String.eqb v w) voc).
Proof.
  unfold matches. induction voc as [|a r IH]; [reflexivity|].
  simpl. destruct (String.eqb a w); simpl; rewrite IH; reflexivity.
Qed.

Lemma full_join_left (f g : string -> Z) (hvoc svoc : list string) :
  NoDup hvoc ->
  (forall w, ~ In w hvoc -> g w = 0%Z) ->
  map fill_row
    (flat_map (fun r =>
                 match matches (fst r) (map (fun v => (v, g v)) hvoc) with
                 | [] => [(fst r, Some (snd r), None)]
                 | ms => map (fun m => (fst r, Some (snd r), Some (snd m))) ms
                 end) (map (fun w => (w, f w)) svoc))
  = map (fun w => mk_row w (f w) (g w)) svoc.
Proof.
  intros Hnd Hg. induction svoc as [|a r IH]; [reflexivity|].
  rewrite (map_cons (fun w => (w, f w))).
  change (flat_map ?F (?x :: ?l)) with (F x ++ flat_map F l).
  rewrite map_app, IH, map_cons. cbn [fst snd app]. f_equal.
  rewrite matches_map, (filter_eqb_NoDup a hvoc Hnd).
  destruct (mem a hvoc) eqn:E; cbn; unfold fill_row; cbn.
  - reflexivity.
  - apply mem_false in E. rewrite (Hg a E). reflexivity.
Qed.

Lemma full_join_right (f g : string -> Z) (svoc hvoc : list string) :
  (forall w, ~ In w svoc -> f w = 0%Z) ->
  map fill_row
    (map (fun r : string * Z => (fst r, None, Some (snd r)))
       (filter (fun r => negb (mem (fst r) svoc))
          (map (fun w => (w, g w)) hvoc)))
  = map (fun w => mk_row w (f w) (g w))
      (filter (fun w => negb (mem w svoc)) hvoc).
Proof.
  intros Hf. induction hvoc as [|a r IH]; [reflexivity|].
  cbn [map filter fst]. destruct (mem a svoc) eqn:E; cbn [negb]; [exact IH|].
  cbn [map]. rewrite IH. apply mem_false in E.
  unfold fill_row at 1. cbn. rewrite (Hf a E). reflexivity.
Qed.

Lemma map_fst_pairs (f : string -> Z) (l : list string) :
  map fst (map (fun w => (w, f w)) l) = l.
Proof.
  induction l as [|a r IH]; [reflexivity|]. simpl. rewrite IH. reflexivity.
Qed.

(** When it exists, the joined table has one row for each word of the two
    class vocabularies, and the row holds the two counts of its word. *)
Lemma count_table_val (voc mes : list string) (t : list (string * Z)) :
  count_table voc mes = Val t ->
  voc <> [] /\ t = map (fun w => (w, count_word mes w)) voc.
Proof.
  unfold count_table. destruct voc as [|v r] eqn:E; [discriminate|].
  intros H. injection H as H. split; [discriminate | now subst t].
Qed.

Lemma word_counts_rows (spam_train : list message) (wc : list wc_row) :
  word_counts spam_train = Val wc ->
  spam_voc spam_train <> [] /\ ham_voc spam_train <> []
  /\ wc = map (fun w => mk_row w (count_word (spam_mes spam_train) w)
                               (count_word (ham_mes spam_train) w))
              (joined_words spam_train).
Proof.
  unfold word_counts, spam_counts, ham_counts.
  destruct (count_table (spam_voc spam_train) _) as [|sc] eqn:Es;
    [discriminate|].
  destruct (count_table (ham_voc spam_train) _) as [|hc] eqn:Eh;
    [discriminate|].
  apply count_table_val in Es, Eh.
  destruct Es as [Hs ->]. destruct Eh as [Hh ->].
  cbn [bind]. intros H. injection H as H.
  split; [exact Hs|]. split; [exact Hh|].
  subst wc. unfold joined_words, full_join. rewrite !map_app. f_equal.
  - apply full_join_left.
    + apply unique_NoDup.
    + intros w Hw. apply count_word_zero. exact Hw.
  - rewrite (filter_ext _ (fun r => negb (mem (fst r) (spam_voc spam_train)))).
    + apply full_join_right.
      intros w Hw. apply count_word_zero. exact Hw.
    + intros r. rewrite map_fst_pairs. reflexivity.
Qed.

Lemma word_counts_exists (spam_train : list message) :
  spam_voc spam_train <> [] -> ham_voc spam_train <> [] ->
  exists wc, word_counts spam_train = Val wc.
Proof.
  unfold word_counts, spam_counts, ham_counts, count_table.
  destruct (spam_voc spam_train); [congruence|].
  destruct (ham_voc spam_train); [congruence|].
  intros _ _. eexists. reflexivity.
Qed.

Lemma joined_words_NoDup (spam_train : list message) :
  NoDup (joined_words spam_train).
Proof.
  unfold joined_words. apply NoDup_app.
  - apply unique_NoDup.
  - apply NoDup_filter, unique_NoDup.
  - intros w Hs Hh. apply filter_In in Hh. destruct Hh as [_ Hh].
    apply negb_true_iff, mem_false in Hh. contradiction.
Qed.

Lemma class_mes_In (spam_train : list message) (c : label) (m : string) :
  In m (class_mes spam_train c)
  <-> exists raw, In (c, raw) spam_train /\ m = normalize raw.
Proof.
  unfold class_mes, tidy_train. rewrite in_map_iff. split.
  - intros [[l t] [E H]]. apply filter_In in H. destruct H as [H Hl].
    apply in_map_iff in H. destruct H as [[l' raw] [E' H]].
    cbn [fst snd] in *. injection E' as <- <-. subst m. exists raw.
    destruct l', c; try discriminate; auto.
  - intros [raw [H ->]]. exists (c, normalize raw). split; [reflexivity|].
    apply filter_In. split.
    + apply in_map_iff. exists (c, raw). auto.
    + destruct c; reflexivity.
Qed.

Lemma messages_In (spam_train : list message) (m : string) :
  In m (messages spam_train)
  <-> exists c, In m (class_mes spam_train c).
Proof.
  unfold messages, tidy_train. rewrite map_map, in_map_iff. cbn. split.
  - intros [[c raw] [E H]]. exists c. apply class_mes_In. exists raw. auto.
  - intros [c H]. apply class_mes_In in H. destruct H as [raw [H ->]].
    exists (c, raw). auto.
Qed.

(** The vocabulary is the union of the two class vocabularies. *)
Lemma vocabulary_union (spam_train : list message) (w : string) :
  In w (vocabulary spam_train)
  <-> In w (spam_voc spam_train) \/ In w (ham_voc spam_train).
Proof.
  unfold vocabulary, spam_voc, ham_voc, spam_mes, ham_mes.
  rewrite !build_voc_In. split.
  - intros [m [Hm Hw]]. apply messages_In in Hm. destruct Hm as [[] Hm].
    + right. eauto.
    + left. eauto.
  - intros [[m [Hm Hw]]|[m [Hm Hw]]]; exists m; split; auto;
      apply messages_In; eauto.
Qed.

Lemma joined_words_In (spam_train : list message) (w : string) :
  In w (joined_words spam_train) <-> In w (vocabulary spam_train).
Proof.
  unfold joined_words. rewrite in_app_iff, filter_In, vocabulary_union.
  rewrite negb_true_iff, mem_false.
  destruct (in_dec string_dec w (spam_voc spam_train)); tauto.
Qed.

Lemma word_counts_In (spam_train : list message) (wc : list wc_row)
  (r : wc_row) :
  word_counts spam_train = Val wc ->
  In r wc ->
  In (word r) (vocabulary spam_train)
  /\ spam_count r = count_word (spam_mes spam_train) (word r)
  /\ ham_count r = count_word (ham_mes spam_train) (word r).
Proof.
  intros H Hr. apply word_counts_rows in H. destruct H as [_ [_ ->]].
  apply in_map_iff in Hr. destruct Hr as [w [<- Hw]]. cbn.
  apply joined_words_In in Hw. auto.
Qed.

Lemma word_counts_words (spam_train : list message) (wc : list wc_row) :
  word_counts spam_train = Val wc -> map word wc = joined_words spam_train.
Proof.
  intros H. apply word_counts_rows in H. destruct H as [_ [_ ->]].
  rewrite map_map. cbn. apply map_id.
Qed.

(** C5: every row of the joined table holds, for each class, the number of
    token slots equal to its word among all the tokens of the cleaned
    messages of that class, which is 0 for a word outside the vocabulary of
    the class; every word of the vocabulary has exactly one row. *)
Theorem word_counts_token_slots (spam_train : list message) (wc : list wc_row) :
  word_counts spam_train = Val wc ->
  NoDup (map word wc)
  /\ (forall w, In w (vocabulary spam_train) <-> In w (map word wc))
  /\ forall r, In r wc ->
       spam_count r = token_slots (spam_mes spam_train) (word r)
       /\ ham_count r = token_slots (ham_mes spam_train) (word r)
       /\ (~ In (word r) (spam_voc spam_train) -> spam_count r = 0%Z)
       /\ (~ In (word r) (ham_voc spam_train) -> ham_count r = 0%Z).
Proof.
  intros H. rewrite (word_counts_words _ _ H). split; [|split].
  - apply joined_words_NoDup.
  - intros w. symmetry. apply joined_words_In.
  - intros r Hr. destruct (word_counts_In _ _ _ H Hr) as [_ [Es Eh]].
    rewrite Es, Eh, <- !count_word_slots.
    split; [reflexivity|]. split; [reflexivity|].
    split; intros Hn; apply count_word_zero; exact Hn.
Qed.

Lemma word_counts_token_slots_witness :
  exists wc, word_counts scenario_train = Val wc
  /\ NoDup (map word wc)
  /\ (forall w, In w (vocabulary scenario_train) <-> In w (map word wc))
  /\ forall r, In r wc ->
       spam_count r = token_slots (spam_mes scenario_train) (word r)
       /\ ham_count r = token_slots (ham_mes scenario_train) (word r)
       /\ (~ In (word r) (spam_voc scenario_train) -> spam_count r = 0%Z)
       /\ (~ In (word r) (ham_voc scenario_train) -> ham_count r = 0%Z).
Proof.
  eexists. split; [reflexivity|].
  apply (word_counts_token_slots scenario_train). reflexivity.
Defined.

(** The count of a word is a number of occurrences, not a number of
    messages: in the single message [a a a] the word occurs three times. *)
Example count_is_not_presence :
  count_word ["a a a"] "a" = 3%Z /\ messages_containing ["a a a"] "a" = 1%Z.
Proof. split; reflexivity. Qed.

(** ** The empty token *)

Lemma filter_map_comm {A B : Type} (p : B -> bool) (h : A -> B) (l : list A) :
  filter p (map h l) = map h (filter (fun a => p (h a)) l).
Proof.
  induction l as [|a r IH]; [reflexivity|].
  simpl. destruct (p (h a)); simpl; rewrite IH; reflexivity.
Qed.

Lemma unique_NoDup_id (l : list string) : NoDup l -> unique l = l.
Proof.
  induction 1 as [|a r Ha Hr IH]; [reflexivity|].
  simpl. rewrite IH. f_equal.
  apply forallb_filter_id. apply forallb_forall. intros x Hx.
  apply negb_true_iff, String.eqb_neq. intros ->. contradiction.
Qed.

Lemma length_without (w : string) (l : list string) :
  NoDup l -> In w l ->
  List.length l = S (List.length (filter (fun v => negb (String.eqb v w)) l)).
Proof.
  induction 1 as [|a r Ha Hr IH]; [contradiction|].
  intros [->|Hw]; simpl.
  - rewrite String.eqb_refl. simpl. f_equal.
    rewrite forallb_filter_id; [reflexivity|].
    apply forallb_forall. intros x Hx.
    apply negb_true_iff, String.eqb_neq. intros ->. contradiction.
  - destruct (String.eqb a w) eqn:E.
    + apply String.eqb_eq in E. subst a. contradiction.
    + simpl. f_equal. auto.
Qed.

Lemma setdiff_single (w : string) (l : list string) :
  NoDup l ->
  setdiff l [w] = filter (fun v => negb (String.eqb v w)) l.
Proof.
  intros H. unfold setdiff. rewrite unique_NoDup_id.
  - apply filter_ext. intros v. cbn. rewrite orb_false_r. reflexivity.
  - apply NoDup_filter, H.
Qed.

(** The row of the word [w] is the only row kept by [filter(word %in% w)]. *)
Lemma present_single (spam_train : list message) (wc : list wc_row)
  (w : string) :
  word_counts spam_train = Val wc ->
  In w (vocabulary spam_train) ->
  filter (fun r => mem (word r) [w]) wc
  = [mk_row w (count_word (spam_mes spam_train) w)
              (count_word (ham_mes spam_train) w)].
Proof.
  intros H Hw. apply word_counts_rows in H. destruct H as [_ [_ ->]].
  rewrite filter_map_comm. cbn [word].
  rewrite (filter_ext _ (fun v => String.eqb v w)).
  - rewrite (filter_eqb_NoDup w _ (joined_words_NoDup spam_train)).
    apply joined_words_In, mem_In in Hw. rewrite Hw. reflexivity.
  - intros v. cbn. rewrite orb_false_r. reflexivity.
Qed.

(** C9: empty tokens are not filtered out.  A training message whose cleaned
    text is empty splits into the empty token, which is a word of the
    vocabulary and of the vocabulary of its class, is counted in the size of
    the vocabulary, has a count of at least 1 in its class and a row in the
    joined table; a message whose cleaned text is empty selects that row, so
    the smoothed probabilities of the empty word enter its two scores. *)
Theorem empty_token_is_a_word
  (spam_train : list message) (c : label) (raw : string) :
  In (c, raw) spam_train ->
  normalize raw = EmptyString ->
  str_split (normalize raw) = [EmptyString]
  /\ In EmptyString (vocabulary spam_train)
  /\ In EmptyString (build_voc (class_mes spam_train c))
  /\ n_vocab spam_train
     = (1 + Zlength_of (setdiff (vocabulary spam_train) [EmptyString]))%Z
  /\ (1 <= count_word (class_mes spam_train c) EmptyString)%Z
  /\ forall wc, word_counts spam_train = Val wc ->
       exists r, In r wc /\ word r = EmptyString
         /\ (1 <= match c with
                  | spam => spam_count r
                  | ham => ham_count r
                  end)%Z
         /\ forall msg alpha, normalize msg = EmptyString ->
              prob_rows spam_train wc (str_split (normalize msg)) alpha
              = (spam_prob spam_train alpha r, ham_prob spam_train alpha r)
                  :: map (fun _ : string => (Fin 1, Fin 1))
                       (setdiff (vocabulary spam_train) [EmptyString]).
Proof.
  intros Hin Hn.
  assert (Hc : In EmptyString (build_voc (class_mes spam_train c))).
  { apply build_voc_In. exists EmptyString. split.
    - apply class_mes_In. exists raw. auto.
    - left. reflexivity. }
  assert (Hv : In EmptyString (vocabulary spam_train)).
  { apply vocabulary_union. destruct c; [right | left]; exact Hc. }
  split; [rewrite Hn; reflexivity|]. split; [exact Hv|]. split; [exact Hc|].
  split.
  { unfold n_vocab, Zlength_of.
    rewrite (setdiff_single EmptyString) by apply unique_NoDup.
    rewrite (length_without EmptyString (vocabulary spam_train));
      [lia | apply unique_NoDup | exact Hv]. }
  split; [apply count_word_pos; exact Hc|].
  intros wc Hwc.
  pose proof (present_single _ _ _ Hwc Hv) as Hp.
  set (r := mk_row EmptyString
              (count_word (spam_mes spam_train) EmptyString)
              (count_word (ham_mes spam_train) EmptyString)) in *.
  exists r. split.
  { assert (In r (filter (fun r => mem (word r) [EmptyString]) wc))
      by (rewrite Hp; left; reflexivity).
    apply filter_In in H. tauto. }
  split; [reflexivity|]. split.
  { destruct c; cbn; apply count_word_pos; exact Hc. }
  intros msg alpha Hm. rewrite Hm. unfold prob_rows.
  change (str_split EmptyString) with [EmptyString]. rewrite Hp. reflexivity.
Qed.

Lemma empty_token_is_a_word_witness :
  In (spam, "...123") [(spam, "...123"); (ham, "b")]
  /\ normalize "...123" = EmptyString
  /\ In EmptyString (vocabulary [(spam, "...123"); (ham, "b")]).
Proof.
  split; [left; reflexivity|]. split; [reflexivity|].
  apply (empty_token_is_a_word [(spam, "...123"); (ham, "b")] spam "...123").
  - left; reflexivity.
  - reflexivity.
Defined.

(** ** Numbers *)

Lemma dbl_div_nonzero (a b : Q) : ~ (b == 0)%Q -> dbl_div a b = Fin (a / b)%Q.
Proof.
  intros H. unfold dbl_div.
  destruct (Qeq_bool b 0) eqn:E; [|reflexivity].
  apply Qeq_bool_iff in E. contradiction.
Qed.

Lemma dbl_div_pos (a b : Q) : (0 < b)%Q -> dbl_div a b = Fin (a / b)%Q.
Proof.
  intros H. apply dbl_div_nonzero. intros E. rewrite E in H.
  now apply Qlt_irrefl in H.
Qed.

Lemma Qdiv_pos (a b : Q) : (0 < a)%Q -> (0 < b)%Q -> (0 < a / b)%Q.
Proof.
  intros Ha Hb. apply Qlt_shift_div_l; [exact Hb|]. now rewrite Qmult_0_l.
Qed.

Lemma Qdiv_nonneg (a b : Q) : (0 <= a)%Q -> (0 < b)%Q -> (0 <= a / b)%Q.
Proof.
  intros Ha Hb. apply Qle_shift_div_l; [exact Hb|]. now rewrite Qmult_0_l.
Qed.

Lemma Qdiv_lt_1 (a b : Q) : (0 < b)%Q -> ((a / b < 1)%Q <-> (a < b)%Q).
Proof.
  intros Hb. split; intros H.
  - apply (Qmult_lt_r _ _ b Hb) in H.
    rewrite Qmult_1_l in H.
    assert (E : (a / b * b == a)%Q) by (field; intros E; rewrite E in Hb;
                                        now apply Qlt_irrefl in Hb).
    now rewrite E in H.
  - apply Qlt_shift_div_r; [exact Hb|]. now rewrite Qmult_1_l.
Qed.

Lemma Qdiv_le_1 (a b : Q) : (0 < b)%Q -> (a <= b)%Q -> (a / b <= 1)%Q.
Proof.
  intros Hb H. apply Qle_shift_div_r; [exact Hb|]. now rewrite Qmult_1_l.
Qed.

Lemma inject_Z_nonneg (n : Z) : (0 <= n)%Z -> (0 <= inject_Z n)%Q.
Proof. intros H. change 0%Q with (inject_Z 0). now rewrite <- Zle_Qle. Qed.

Lemma inject_Z_pos (n : Z) : (0 < n)%Z -> (0 < inject_Z n)%Q.
Proof. intros H. change 0%Q with (inject_Z 0). now rewrite <- Zlt_Qlt. Qed.



Lemma fold_mul_ones {A : Type} (l : list A) (a : Q) :
  exists q, fold_left dbl_mul (map (fun _ : A => Fin 1) l) (Fin a) = Fin q
            /\ (q == a)%Q.
Proof.
  revert a. induction l as [|x r IH]; intros a; simpl.
  - exists a. split; [reflexivity | apply Qeq_refl].
  - destruct (IH (a * 1)%Q) as [q [E Hq]]. exists q. split; [exact E|].
    rewrite Hq. apply Qmult_1_r.
Qed.

Lemma Zlength_of_nonneg {A : Type} (l : list A) : (0 <= Zlength_of l)%Z.
Proof. unfold Zlength_of. lia. Qed.

Lemma Zlength_of_pos {A : Type} (l : list A) : l <> [] -> (0 < Zlength_of l)%Z.
Proof. unfold Zlength_of. destruct l; [congruence | simpl; lia]. Qed.

(** ** Class priors *)

Lemma sum_flags {A : Type} (f : A -> bool) (l : list A) :
  sum_Z (map (fun b : bool => if b then 1%Z else 0%Z) (map f l))
  = Zlength_of (filter f l).
Proof.
  unfold Zlength_of. induction l as [|a r IH]; [reflexivity|].
  cbn [map filter]. rewrite sum_Z_cons, IH.
  destruct (f a); cbn [List.length]; lia.
Qed.

Lemma mean_flags {A : Type} (f : A -> bool) (l : list A) :
  l <> [] ->
  mean (map f l)
  = Fin (inject_Z (Zlength_of (filter f l)) / inject_Z (Zlength_of l))%Q.
Proof.
  intros H. unfold mean. rewrite sum_flags.
  assert (E : Zlength_of (map f l) = Zlength_of l)
    by (unfold Zlength_of; now rewrite length_map).
  rewrite E. apply dbl_div_pos, inject_Z_pos, Zlength_of_pos, H.
Qed.

Lemma count_label_tidy (spam_train : list message) (c : label) :
  Zlength_of (filter (fun r => label_eqb (fst r) c) (tidy_train spam_train))
  = count_label c spam_train.
Proof.
  unfold count_label, tidy_train, Zlength_of. f_equal.
  induction spam_train as [|[l t] r IH]; [reflexivity|].
  cbn [map filter fst]. destruct (label_eqb l c); cbn [List.length]; lia.
Qed.

Lemma count_label_total (d : list message) :
  (count_label spam d + count_label ham d)%Z = Zlength_of d.
Proof.
  unfold count_label, Zlength_of.
  induction d as [|[[] t] r IH]; cbn [filter fst label_eqb List.length] in *;
    lia.
Qed.

Lemma priors_fin (spam_train : list message) :
  spam_train <> [] ->
  p_spam spam_train
  = Fin (inject_Z (count_label spam spam_train)
         / inject_Z (Zlength_of spam_train))%Q
  /\ p_ham spam_train
     = Fin (inject_Z (count_label ham spam_train)
            / inject_Z (Zlength_of spam_train))%Q.
Proof.
  intros H.
  assert (Ht : tidy_train spam_train <> []).
  { unfold tidy_train. destruct spam_train; [congruence | discriminate]. }
  assert (El : Zlength_of (tidy_train spam_train) = Zlength_of spam_train).
  { unfold tidy_train, Zlength_of. now rewrite length_map. }
  unfold p_spam, p_ham. rewrite !(mean_flags _ _ Ht), !count_label_tidy, El.
  split; reflexivity.
Qed.

(** C7: on a training set that is not empty the two priors are the fractions
    of messages labelled spam and ham, and they add up to 1. *)
Theorem priors_sum_to_one (spam_train : list message) :
  spam_train <> [] ->
  exists ps ph,
    p_spam spam_train = Fin ps /\ p_ham spam_train = Fin ph
    /\ (ps == inject_Z (count_label spam spam_train)
             / inject_Z (Zlength_of spam_train))%Q
    /\ (ph == inject_Z (count_label ham spam_train)
             / inject_Z (Zlength_of spam_train))%Q
    /\ (ps + ph == 1)%Q.
Proof.
  intros H. destruct (priors_fin _ H) as [Es Eh].
  eexists. eexists. split; [exact Es|]. split; [exact Eh|].
  split; [apply Qeq_refl|]. split; [apply Qeq_refl|].
  pose proof (inject_Z_pos _ (Zlength_of_pos _ H)) as Hn.
  rewrite <- (count_label_total spam_train), inject_Z_plus in *.
  field. intros E. rewrite E in Hn. now apply Qlt_irrefl in Hn.
Qed.

Lemma priors_sum_to_one_witness :
  scenario_train <> []
  /\ exists ps ph,
       p_spam scenario_train = Fin ps /\ p_ham scenario_train = Fin ph
       /\ (ps == inject_Z (count_label spam scenario_train)
                / inject_Z (Zlength_of scenario_train))%Q
       /\ (ph == inject_Z (count_label ham scenario_train)
                / inject_Z (Zlength_of scenario_train))%Q
       /\ (ps + ph == 1)%Q.
Proof.
  split; [discriminate|].
  apply (priors_sum_to_one scenario_train). discriminate.
Defined.

(** ** The rows of a classification *)

(** Once the joined table exists, every word of the vocabulary gives a row to
    the table that [classify] summarises, so the table has rows. *)
Lemma prob_rows_not_nil (spam_train : list message) (wc : list wc_row)
  (words : list string) (alpha : Q) :
  word_counts spam_train = Val wc ->
  prob_rows spam_train wc words alpha <> [].
Proof.
  intros H. pose proof (word_counts_rows _ _ H) as [Hs [_ Hwc]].
  destruct (spam_voc spam_train) as [|w sv] eqn:Es; [congruence|].
  assert (Hw : In w (vocabulary spam_train)).
  { apply vocabulary_union. left. rewrite Es. now left. }
  unfold prob_rows. intros E. apply app_eq_nil in E. destruct E as [E1 E2].
  apply map_eq_nil in E1, E2.
  destruct (mem w words) eqn:M.
  - assert (Hr : In (mk_row w (count_word (spam_mes spam_train) w)
                              (count_word (ham_mes spam_train) w))
                    (filter (fun r => mem (word r) words) wc)).
    { apply filter_In. split; [|exact M].
      rewrite Hwc. apply in_map_iff. exists w. split; [reflexivity|].
      apply joined_words_In, Hw. }
    rewrite E1 in Hr. contradiction.
  - assert (Hn : In w (setdiff (vocabulary spam_train) words)).
    { unfold setdiff. apply unique_In, filter_In. split; [exact Hw|].
      now rewrite M. }
    rewrite E2 in Hn. contradiction.
Qed.

(** ** Smoothed probabilities *)

Lemma class_voc_sizes (spam_train : list message) (wc : list wc_row) :
  word_counts spam_train = Val wc ->
  (1 <= n_spam_voc spam_train)%Z /\ (1 <= n_ham_voc spam_train)%Z
  /\ (1 <= n_vocab spam_train)%Z /\ spam_train <> [].
Proof.
  intros H. apply word_counts_rows in H. destruct H as [Hs [Hh _]].
  assert (Hv : vocabulary spam_train <> []).
  { destruct (spam_voc spam_train) as [|w sv] eqn:Es; [congruence|].
    assert (Hw : In w (vocabulary spam_train)).
    { apply vocabulary_union. left. rewrite Es. now left. }
    intros E. rewrite E in Hw. contradiction. }
  unfold n_spam_voc, n_ham_voc, n_vocab.
  pose proof (Zlength_of_pos _ Hs). pose proof (Zlength_of_pos _ Hh).
  pose proof (Zlength_of_pos _ Hv).
  repeat split; try lia.
  intros ->. apply Hs. reflexivity.
Qed.

Lemma denominator_pos (n_c n_v : Z) (alpha : Q) :
  (1 <= n_c)%Z -> (0 <= n_v)%Z -> (0 <= alpha)%Q ->
  (0 < inject_Z n_c + alpha * inject_Z n_v)%Q.
Proof.
  intros Hc Hv Ha.
  assert (H1 : (0 < inject_Z n_c)%Q) by (apply inject_Z_pos; lia).
  assert (H2 : (0 <= inject_Z n_v)%Q) by (apply inject_Z_nonneg; lia).
  pose proof (Qmult_le_0_compat _ _ Ha H2) as H3.
  apply Qlt_le_trans with (inject_Z n_c + 0)%Q.
  - now rewrite Qplus_0_r.
  - apply Qplus_le_r. exact H3.
Qed.

(** With [alpha >= 0] the two smoothed probabilities of a row are numbers. *)
Lemma probs_laplace (spam_train : list message) (wc : list wc_row)
  (r : wc_row) (alpha : Q) :
  word_counts spam_train = Val wc ->
  (0 <= alpha)%Q ->
  spam_prob spam_train alpha r
  = Fin (laplace (spam_count r) (n_spam_voc spam_train) (n_vocab spam_train)
           alpha)
  /\ ham_prob spam_train alpha r
     = Fin (laplace (ham_count r) (n_ham_voc spam_train) (n_vocab spam_train)
              alpha).
Proof.
  intros H Ha. destruct (class_voc_sizes _ _ H) as [Hs [Hh [Hv _]]].
  unfold spam_prob, ham_prob, laplace.
  split; apply dbl_div_pos, denominator_pos; try assumption; lia.
Qed.

(** C1, as stated: a smoothed probability can exceed 1.  The word [a] occurs
    three times in the only spam message, whose vocabulary has one word, and
    the vocabulary has two words: (3 + 1) / (1 + 1 * 2) is 4/3. *)
Lemma smoothed_prob_above_one :
  word_counts repeated_train
  = Val [mk_row "a" 3 0; mk_row "b" 0 1]
  /\ spam_prob repeated_train 1 (mk_row "a" 3 0) = Fin (4 # 3)
  /\ ~ (4 # 3 < 1)%Q.
Proof.
  split; [reflexivity|]. split; [reflexivity|].
  intros H. discriminate H.
Qed.

(** A count of 0 stays below the denominator. *)
Lemma zero_count_below (n_c n_v : Z) (alpha : Q) :
  (1 <= n_c)%Z -> (1 <= n_v)%Z -> (0 < alpha)%Q ->
  (inject_Z 0 + alpha < inject_Z n_c + alpha * inject_Z n_v)%Q.
Proof.
  intros Hc Hv Ha.
  assert (H1 : (1 <= inject_Z n_c)%Q)
    by (change 1%Q with (inject_Z 1); now rewrite <- Zle_Qle).
  assert (H2 : (1 <= inject_Z n_v)%Q)
    by (change 1%Q with (inject_Z 1); now rewrite <- Zle_Qle).
  change (inject_Z 0) with 0%Q. nra.
Qed.

(** C1, amended: for a row of the joined table and [alpha > 0], each of the
    two probabilities used by [classify] is the smoothed estimate
    [(count + alpha) / (N_c_vocab + alpha * N_vocab)], and it is strictly
    positive, also for a count of 0.  It is below 1 exactly when
    [count + alpha < N_c_vocab + alpha * N_vocab], which holds for a count
    of 0; the count is a number of occurrences and may exceed the number of
    distinct words. *)
Theorem smoothed_probability (spam_train : list message) (wc : list wc_row)
  (r : wc_row) (alpha : Q) :
  word_counts spam_train = Val wc ->
  In r wc ->
  (0 < alpha)%Q ->
  let ps := laplace (spam_count r) (n_spam_voc spam_train)
              (n_vocab spam_train) alpha in
  let ph := laplace (ham_count r) (n_ham_voc spam_train)
              (n_vocab spam_train) alpha in
  spam_prob spam_train alpha r = Fin ps
  /\ ham_prob spam_train alpha r = Fin ph
  /\ (0 < ps)%Q /\ (0 < ph)%Q
  /\ ((ps < 1)%Q <->
      (inject_Z (spam_count r) + alpha
       < inject_Z (n_spam_voc spam_train)
         + alpha * inject_Z (n_vocab spam_train))%Q)
  /\ ((ph < 1)%Q <->
      (inject_Z (ham_count r) + alpha
       < inject_Z (n_ham_voc spam_train)
         + alpha * inject_Z (n_vocab spam_train))%Q)
  /\ (spam_count r = 0%Z -> (ps < 1)%Q)
  /\ (ham_count r = 0%Z -> (ph < 1)%Q).
Proof.
  intros H Hr Ha ps ph.
  destruct (probs_laplace _ _ r alpha H (Qlt_le_weak _ _ Ha)) as [Es Eh].
  destruct (class_voc_sizes _ _ H) as [Hs [Hh [Hv _]]].
  destruct (word_counts_In _ _ _ H Hr) as [_ [Cs Ch]].
  pose proof (count_word_nonneg (spam_mes spam_train) (word r)) as Ns.
  pose proof (count_word_nonneg (ham_mes spam_train) (word r)) as Nh.
  rewrite <- Cs in Ns. rewrite <- Ch in Nh.
  assert (Hv0 : (0 <= n_vocab spam_train)%Z) by lia.
  pose proof (denominator_pos _ _ alpha Hs Hv0 (Qlt_le_weak _ _ Ha)) as Ds.
  pose proof (denominator_pos _ _ alpha Hh Hv0 (Qlt_le_weak _ _ Ha)) as Dh.
  assert (Ps : (0 < inject_Z (spam_count r) + alpha)%Q).
  { apply Qlt_le_trans with (0 + alpha)%Q; [now rewrite Qplus_0_l|].
    apply Qplus_le_l, inject_Z_nonneg, Ns. }
  assert (Ph : (0 < inject_Z (ham_count r) + alpha)%Q).
  { apply Qlt_le_trans with (0 + alpha)%Q; [now rewrite Qplus_0_l|].
    apply Qplus_le_l, inject_Z_nonneg, Nh. }
  split; [exact Es|]. split; [exact Eh|].
  split; [apply Qdiv_pos; assumption|].
  split; [apply Qdiv_pos; assumption|].
  split; [apply Qdiv_lt_1; assumption|].
  split; [apply Qdiv_lt_1; assumption|].
  split; intros Z0; apply Qdiv_lt_1; try assumption; rewrite Z0;
    apply zero_count_below; assumption.
Qed.

Lemma smoothed_probability_witness :
  exists wc,
    word_counts scenario_train = Val wc
    /\ In (mk_row "you" 0 2) wc
    /\ (0 < 1)%Q
    /\ spam_prob scenario_train 1 (mk_row "you" 0 2)
       = Fin (laplace 0 (n_spam_voc scenario_train)
                (n_vocab scenario_train) 1)
    /\ (0 < laplace 0 (n_spam_voc scenario_train)
              (n_vocab scenario_train) 1)%Q.
Proof.
  eexists. split; [reflexivity|].
  assert (Hin : In (mk_row "you" 0 2)
                  [mk_row "win" 1 0; mk_row "money" 1 0; mk_row "now" 1 0;
                   mk_row "hello" 0 1; mk_row "how" 0 1; mk_row "are" 0 1;
                   mk_row "you" 0 2; mk_row "see" 0 1; mk_row "tomorrow" 0 1])
    by (simpl; tauto).
  split; [exact Hin|]. split; [reflexivity|].
  pose proof (smoothed_probability scenario_train _ (mk_row "you" 0 2) 1
                eq_refl Hin eq_refl) as H.
  split; [exact (proj1 H) | exact (proj1 (proj2 (proj2 H)))].
Defined.

(** ** Scores and the decision *)



(** The result is [NA] exactly when one of the two scores is [NaN]. *)
Lemma classify_na (spam_train : list message) (wc : list wc_row)
  (msg : string) (alpha : Q) :
  word_counts spam_train = Val wc ->
  classify spam_train msg alpha = Val None
  <-> (score_spam spam_train msg alpha = Val NaN
       \/ score_ham spam_train msg alpha = Val NaN).
Proof.
  intros H. unfold classify, score_spam, score_ham. rewrite H. cbn [bind].
  destruct (scores spam_train wc (str_split (normalize msg)) alpha)
    as [[a| | |] [b| | |]]; cbn; try destruct (Qle_bool b a);
    split; intros E; try discriminate; try tauto;
    try (destruct E; discriminate).
Qed.





(** A tie is reached and resolved to spam: with one spam and one ham message
    of the same single word the two scores are equal. *)
Example tie_yields_spam :
  score_spam shared_train "a" 1 = score_ham shared_train "a" 1
  /\ classify shared_train "a" 1 = Val (Some spam).
Proof. split; reflexivity. Qed.

(** ** Tokens outside the vocabulary *)

Lemma mem_ext (w : string) (l l' : list string) :
  (In w l <-> In w l') -> mem w l = mem w l'.
Proof.
  intros H. destruct (mem w l') eqn:E.
  - apply mem_In, H, mem_In, E.
  - apply mem_false. intros C. apply mem_false in E. apply E, H, C.
Qed.

(** The rows, hence the scores, depend on the message only through the set
    of its tokens that are words of the vocabulary. *)
Lemma prob_rows_ext (spam_train : list message) (wc : list wc_row)
  (ws ws' : list string) (alpha : Q) :
  word_counts spam_train = Val wc ->
  (forall w, In w (vocabulary spam_train) -> (In w ws <-> In w ws')) ->
  prob_rows spam_train wc ws alpha = prob_rows spam_train wc ws' alpha.
Proof.
  intros H Hw. unfold prob_rows, setdiff. f_equal; [f_equal | do 2 f_equal].
  - apply filter_ext_in. intros r Hr. apply mem_ext, Hw.
    apply (word_counts_In _ _ _ H Hr).
  - apply filter_ext_in. intros w Hv. f_equal. apply mem_ext, Hw, Hv.
Qed.

Lemma filter_none {A : Type} (l : list A) : filter (fun _ => false) l = [].
Proof. induction l; auto. Qed.

Lemma dbl_mul_one (p : Q) (l : list string) :
  exists s, dbl_mul (Fin p) (prod (map (fun _ : string => Fin 1) l)) = s
            /\ dbl_eq s (Fin p).
Proof.
  unfold prod. destruct (fold_mul_ones l 1) as [q [-> Hq]].
  eexists. split; [reflexivity|]. cbn. rewrite Hq. apply Qmult_1_r.
Qed.

(** C2: the scores of a message are those of its tokens that are words of
    the vocabulary: a token outside the vocabulary, wherever it stands,
    changes neither score; when no token is in the vocabulary the two scores
    are the two priors. *)
Theorem unseen_tokens_neutral (spam_train : list message) (wc : list wc_row)
  (msg : string) (alpha : Q) :
  word_counts spam_train = Val wc ->
  let words := str_split (normalize msg) in
  let known := filter (fun w => mem w (vocabulary spam_train)) words in
  score_spam spam_train msg alpha
  = Val (fst (scores spam_train wc known alpha))
  /\ score_ham spam_train msg alpha
     = Val (snd (scores spam_train wc known alpha))
  /\ (forall pre t post, ~ In t (vocabulary spam_train) ->
        scores spam_train wc (pre ++ t :: post) alpha
        = scores spam_train wc (pre ++ post) alpha)
  /\ (known = [] ->
      exists s h,
        score_spam spam_train msg alpha = Val s
        /\ score_ham spam_train msg alpha = Val h
        /\ dbl_eq s (p_spam spam_train) /\ dbl_eq h (p_ham spam_train)).
Proof.
  intros H words known.
  assert (E : prob_rows spam_train wc words alpha
              = prob_rows spam_train wc known alpha).
  { apply prob_rows_ext; [exact H|]. intros w Hv. unfold known.
    rewrite filter_In, mem_In. tauto. }
  assert (Es : score_spam spam_train msg alpha
               = Val (fst (scores spam_train wc known alpha))).
  { unfold score_spam. rewrite H. cbn [bind]. unfold scores.
    fold words. rewrite E. reflexivity. }
  assert (Eh : score_ham spam_train msg alpha
               = Val (snd (scores spam_train wc known alpha))).
  { unfold score_ham. rewrite H. cbn [bind]. unfold scores.
    fold words. rewrite E. reflexivity. }
  split; [exact Es|]. split; [exact Eh|]. split.
  - intros pre t post Ht. unfold scores.
    rewrite (prob_rows_ext _ _ (pre ++ t :: post) (pre ++ post) alpha H);
      [reflexivity|].
    intros w Hv. rewrite !in_app_iff. cbn [In].
    split; [|tauto]. intros [Hp|[->|Hp]]; tauto.
  - intros Hk. rewrite Es, Eh, Hk.
    destruct (class_voc_sizes _ _ H) as [_ [_ [_ Hne]]].
    destruct (priors_fin _ Hne) as [Ps Ph].
    unfold scores, prob_rows. cbn [mem existsb].
    rewrite filter_none. cbn [map app fst snd].
    rewrite !map_map. cbn [fst snd]. rewrite Ps, Ph.
    destruct (dbl_mul_one
                (inject_Z (count_label spam spam_train)
                 / inject_Z (Zlength_of spam_train))
                (setdiff (vocabulary spam_train) [])) as [s [Hs Hs']].
    destruct (dbl_mul_one
                (inject_Z (count_label ham spam_train)
                 / inject_Z (Zlength_of spam_train))
                (setdiff (vocabulary spam_train) [])) as [h [Hh Hh']].
    exists s, h. rewrite Hs, Hh. auto.
Qed.

Lemma unseen_tokens_neutral_witness :
  exists wc,
    word_counts scenario_train = Val wc
    /\ score_spam scenario_train "win zzz money" 1
       = Val (fst (scores scenario_train wc ["win"; "money"] 1))
    /\ score_ham scenario_train "win zzz money" 1
       = Val (snd (scores scenario_train wc ["win"; "money"] 1)).
Proof.
  eexists. split; [reflexivity|].
  pose proof (unseen_tokens_neutral scenario_train _ "win zzz money" 1
                eq_refl) as H.
  split; [exact (proj1 H) | exact (proj1 (proj2 H))].
Defined.

(** A message without any known token is classified by the priors. *)
Example unknown_message_scores :
  score_spam scenario_train "zzz qqq" 1 = Val (Fin (1 # 3))
  /\ score_ham scenario_train "zzz qqq" 1 = Val (Fin (2 # 3))
  /\ classify scenario_train "zzz qqq" 1 = Val (Some ham).
Proof. repeat split; reflexivity. Qed.

(** ** Confusion table and accuracy *)

Lemma combine_fst_snd {A B : Type} (d : list (A * B)) :
  combine (map fst d) (map snd d) = d.
Proof.
  induction d as [|[a b] r IH]; [reflexivity|]. simpl. now rewrite IH.
Qed.

Lemma occurs_nonempty (l : label) (v : list (option label)) :
  occurs l v = true -> v <> [].
Proof. destruct v; [discriminate | intros _; discriminate]. Qed.

Lemma correct_split (d : list (label * option label)) :
  (Zlength_of (filter (fun p => label_eqb (fst p) ham
                                && opt_label_eqb (snd p) ham) d)
   + Zlength_of (filter (fun p => label_eqb (fst p) spam
                                  && opt_label_eqb (snd p) spam) d))%Z
  = correct d.
Proof.
  unfold correct, Zlength_of.
  induction d as [|[[] [[]|]] r IH];
    cbn [filter fst snd label_eqb opt_label_eqb andb List.length] in *; lia.
Qed.

Lemma correct_range (d : list (label * option label)) :
  (0 <= correct d <= Zlength_of d)%Z.
Proof.
  unfold correct, Zlength_of. split; [lia|].
  apply inj_le, filter_length_le.
Qed.

Lemma accuracy_two_by_two (d : list (label * option label)) :
  two_by_two d = true ->
  accuracy d
  = Val (dbl_div (inject_Z (correct d)) (inject_Z (Zlength_of d))).
Proof.
  unfold two_by_two, accuracy, table, cell, levels. cbn.
  intros H. andb_hyp H.
  rewrite H, H0, H1, H2. cbn.
  rewrite combine_fst_snd, correct_split. reflexivity.
Qed.

Lemma accuracy_stop (d : list (label * option label)) :
  two_by_two d = false -> accuracy d = Stop.
Proof.
  unfold two_by_two, accuracy, table, cell, levels. cbn.
  destruct (occurs ham (map Some (map fst d)));
    destruct (occurs spam (map Some (map fst d)));
    destruct (occurs ham (map snd d));
    destruct (occurs spam (map snd d)); cbn; try reflexivity.
  discriminate.
Qed.

Lemma accuracy_range (d : list (label * option label)) :
  two_by_two d = true ->
  exists q, dbl_div (inject_Z (correct d)) (inject_Z (Zlength_of d)) = Fin q
            /\ (0 <= q <= 1)%Q.
Proof.
  intros H.
  assert (Hd : d <> []).
  { unfold two_by_two in H.
    andb_hyp H.
    apply occurs_nonempty in H2. intros ->. now apply H2. }
  pose proof (inject_Z_pos _ (Zlength_of_pos _ Hd)) as Hn.
  destruct (correct_range d) as [H0 H1].
  eexists. split; [apply dbl_div_pos, Hn|]. split.
  - apply Qdiv_nonneg; [apply inject_Z_nonneg, H0 | exact Hn].
  - apply Qdiv_le_1; [exact Hn|]. now rewrite <- Zle_Qle.
Qed.

Lemma accuracy_val (d : list (label * option label)) (v : dbl) :
  accuracy d = Val v ->
  two_by_two d = true /\ exists q, v = Fin q /\ (0 <= q <= 1)%Q.
Proof.
  intros H. destruct (two_by_two d) eqn:E.
  - split; [reflexivity|]. rewrite (accuracy_two_by_two d E) in H.
    injection H as <-. apply accuracy_range, E.
  - rewrite (accuracy_stop d E) in H. discriminate.
Qed.

Lemma same_prediction (d : list (label * option label)) (p : option label)
  (l : label) :
  (forall x, In x d -> snd x = p) -> occurs l (map snd d) = true -> p = Some l.
Proof.
  intros Hp H. unfold occurs in H. apply existsb_exists in H.
  destruct H as [x [Hx E]]. apply in_map_iff in Hx.
  destruct Hx as [y [<- Hy]]. rewrite (Hp y Hy) in E.
  destruct p as [[]|], l; try discriminate; reflexivity.
Qed.

(** C10: the accuracy is read off the cells (1,1) and (2,2) of the confusion
    table.  When both labels occur among the true labels and among the
    predictions it is the number of exact matches over the number of rows, a
    value in [0, 1]; otherwise a subscript is out of bounds and the
    computation stops, in particular when every message receives the same
    prediction. *)
Theorem accuracy_needs_two_by_two (d : list (label * option label)) :
  (two_by_two d = true ->
   exists q,
     accuracy d = Val (Fin q)
     /\ (q == inject_Z (correct d) / inject_Z (Zlength_of d))%Q
     /\ (0 <= q <= 1)%Q)
  /\ (two_by_two d = false -> accuracy d = Stop)
  /\ (forall p, (forall x, In x d -> snd x = p) -> accuracy d = Stop).
Proof.
  split; [|split].
  - intros H. rewrite (accuracy_two_by_two d H).
    destruct (accuracy_range d H) as [q [E Hq]].
    exists q. split; [now rewrite E|]. split; [|exact Hq].
    assert (Hd : d <> []).
    { intros ->. discriminate H. }
    rewrite dbl_div_pos in E by apply inject_Z_pos, Zlength_of_pos, Hd.
    injection E as <-. apply Qeq_refl.
  - apply accuracy_stop.
  - intros p Hp. apply accuracy_stop.
    destruct (two_by_two d) eqn:E; [exfalso | reflexivity].
    unfold two_by_two in E.
    andb_hyp E.
    pose proof (same_prediction d p ham Hp H0) as P1.
    pose proof (same_prediction d p spam Hp H) as P2.
    congruence.
Qed.

(** On the training set of the scenario every message is classified with its
    own label, and the accuracy is 1. *)
Example train_accuracy_scenario : train_accuracy scenario_train = Val (Fin (3 # 3)).
Proof. reflexivity. Qed.

(** A split whose messages are all predicted ham has a table with one column,
    and reading the cell (2,2) stops the computation. *)
Example accuracy_one_column :
  accuracy [(ham, Some ham); (spam, Some ham)] = Stop.
Proof. reflexivity. Qed.

(** ** The tuning loop *)

Lemma fold_cv_step_stop (spam_train spam_cv : list message) (grid : list Q) :
  fold_left (cv_step spam_train spam_cv) grid Stop = Stop.
Proof. induction grid as [|a r IH]; [reflexivity | exact IH]. Qed.

(** The loop appends, in the order of the grid, the accuracy of each
    candidate, and stops at the first candidate whose accuracy stops. *)
Lemma fold_cv_step (spam_train spam_cv : list message) (grid : list Q)
  (accs : list dbl) :
  fold_left (cv_step spam_train spam_cv) grid (Val accs)
  = (l <- map_res (cv_accuracy_at spam_train spam_cv) grid ;; Val (accs ++ l)).
Proof.
  revert accs. induction grid as [|a r IH]; intros accs.
  - cbn. now rewrite app_nil_r.
  - cbn [fold_left map_res]. unfold cv_step at 2, cv_accuracy_at at 1.
    cbn [bind]. destruct (predict spam_train spam_cv a) as [|cv]; cbn [bind].
    + apply fold_cv_step_stop.
    + destruct (accuracy cv) as [|acc]; cbn [bind].
      * apply fold_cv_step_stop.
      * rewrite IH.
        destruct (map_res (cv_accuracy_at spam_train spam_cv) r); cbn [bind].
        -- reflexivity.
        -- now rewrite <- app_assoc.
Qed.

Lemma tune_map_res (spam_train : list message) (grid : list Q)
  (spam_cv : list message) :
  tune spam_train grid spam_cv
  = (l <- map_res (cv_accuracy_at spam_train spam_cv) grid ;;
     Val (combine grid l)).
Proof.
  unfold tune. rewrite fold_cv_step.
  destruct (map_res (cv_accuracy_at spam_train spam_cv) grid); reflexivity.
Qed.

Lemma map_res_val {A B : Type} (f : A -> res B) (l : list A) (l' : list B) :
  map_res f l = Val l' -> Forall2 (fun a b => f a = Val b) l l'.
Proof.
  revert l'. induction l as [|a r IH]; intros l'; cbn.
  - intros H. injection H as <-. constructor.
  - destruct (f a) as [|b] eqn:E; cbn; [discriminate|].
    destruct (map_res f r) as [|bs]; cbn; [discriminate|].
    intros H. injection H as <-. constructor; auto.
Qed.

Lemma map_res_total {A B : Type} (f : A -> res B) (l : list A) :
  (forall a, In a l -> exists b, f a = Val b) ->
  exists l', map_res f l = Val l'.
Proof.
  induction l as [|a r IH]; intros H; cbn.
  - eexists. reflexivity.
  - destruct (H a (or_introl eq_refl)) as [b ->].
    destruct IH as [bs ->]; [intros x Hx; apply H; now right|].
    eexists. reflexivity.
Qed.

Lemma map_res_stop {A B : Type} (f : A -> res B) (l : list A) (a : A) :
  In a l -> f a = Stop -> map_res f l = Stop.
Proof.
  induction l as [|x r IH]; [contradiction|].
  intros [->|Hin] Ha; cbn.
  - now rewrite Ha.
  - destruct (f x); [reflexivity|]. cbn. now rewrite (IH Hin Ha).
Qed.

Lemma Forall2_combine {A B : Type} (R : A -> B -> Prop) (l : list A)
  (l' : list B) :
  Forall2 R l l' ->
  List.length (combine l l') = List.length l
  /\ map fst (combine l l') = l
  /\ Forall (fun p => R (fst p) (snd p)) (combine l l').
Proof.
  induction 1 as [|a b r r' Hab Hr [IH1 [IH2 IH3]]]; cbn.
  - repeat split; constructor.
  - rewrite IH1, IH2. repeat split. constructor; assumption.
Qed.

Lemma cv_accuracy_at_ok (spam_train spam_cv : list message) (alpha : Q) :
  cv_table_ok spam_train spam_cv alpha = true ->
  exists acc, cv_accuracy_at spam_train spam_cv alpha = Val acc.
Proof.
  unfold cv_table_ok, cv_accuracy_at.
  destruct (predict spam_train spam_cv alpha) as [|cv]; [discriminate|].
  intros H. cbn [bind]. rewrite (accuracy_two_by_two cv H). eexists.
  reflexivity.
Qed.

Lemma cv_accuracy_at_range (spam_train spam_cv : list message) (alpha : Q)
  (acc : dbl) :
  cv_accuracy_at spam_train spam_cv alpha = Val acc ->
  exists q, acc = Fin q /\ (0 <= q <= 1)%Q.
Proof.
  unfold cv_accuracy_at.
  destruct (predict spam_train spam_cv alpha) as [|cv]; [discriminate|].
  cbn [bind]. intros H. apply accuracy_val in H. tauto.
Qed.

(** Without a 2-by-2 table for some candidate the loop produces no table. *)
Lemma tune_stops (spam_train : list message) (grid : list Q)
  (spam_cv : list message) :
  forallb (cv_table_ok spam_train spam_cv) grid = false ->
  tune spam_train grid spam_cv = Stop.
Proof.
  intros H. rewrite tune_map_res.
  assert (E : exists a, In a grid
                        /\ cv_table_ok spam_train spam_cv a = false).
  { induction grid as [|a r IH]; [discriminate|].
    cbn in H. apply andb_false_iff in H. destruct H as [H|H].
    - exists a. split; [now left | exact H].
    - destruct (IH H) as [x [Hx Ex]]. exists x. split; [now right | exact Ex]. }
  destruct E as [a [Ha Ea]].
  rewrite (map_res_stop _ grid a Ha); [reflexivity|].
  unfold cv_table_ok in Ea. unfold cv_accuracy_at.
  destruct (predict spam_train spam_cv a) as [|cv]; [reflexivity|].
  cbn [bind]. apply accuracy_stop, Ea.
Qed.

(** C8, as stated for every validation set: a validation set with a single
    message gives a confusion table with one row, the cell (2,2) does not
    exist and the loop produces no table. *)
Lemma tune_stops_on_one_message :
  tune scenario_train [1; 1 # 2] [(ham, "hello")] = Stop.
Proof. reflexivity. Qed.

(** C8, amended: when for every candidate both labels occur in the
    validation set and among its predictions, the loop produces the table of
    the candidates with their accuracies: as many rows as candidates, in the
    order of the grid, each accuracy being that of its candidate and a value
    in [0, 1]. *)
Theorem tuning_table (spam_train : list message) (alpha_grid : list Q)
  (spam_cv : list message) :
  forallb (cv_table_ok spam_train spam_cv) alpha_grid = true ->
  exists tbl,
    tune spam_train alpha_grid spam_cv = Val tbl
    /\ List.length tbl = List.length alpha_grid
    /\ map fst tbl = alpha_grid
    /\ Forall (fun row =>
                 cv_accuracy_at spam_train spam_cv (fst row) = Val (snd row)
                 /\ exists q, snd row = Fin q /\ (0 <= q <= 1)%Q) tbl.
Proof.
  intros H. rewrite tune_map_res.
  destruct (map_res_total (cv_accuracy_at spam_train spam_cv) alpha_grid)
    as [l E].
  { intros a Ha. apply cv_accuracy_at_ok.
    rewrite forallb_forall in H. apply H, Ha. }
  rewrite E. cbn [bind]. eexists. split; [reflexivity|].
  apply map_res_val in E.
  destruct (Forall2_combine _ _ _ E) as [H1 [H2 H3]].
  split; [exact H1|]. split; [exact H2|].
  revert H3. apply Forall_impl. intros [a acc] Ha. cbn [fst snd] in *.
  split; [exact Ha|]. apply (cv_accuracy_at_range _ _ _ _ Ha).
Qed.

Lemma tuning_table_witness :
  forallb (cv_table_ok scenario_train [(ham, "hello"); (spam, "win")])
    [1; 1 # 2] = true
  /\ exists tbl,
       tune scenario_train [1; 1 # 2] [(ham, "hello"); (spam, "win")] = Val tbl
       /\ List.length tbl = 2%nat
       /\ map fst tbl = [1; 1 # 2].
Proof.
  split; [reflexivity|].
  destruct (tuning_table scenario_train [1; 1 # 2]
              [(ham, "hello"); (spam, "win")] eq_refl)
    as [tbl [E [H1 [H2 _]]]].
  exists tbl. auto.
Defined.

(** ** The end-to-end scenario *)

(** C6, as stated: the vocabulary of the scenario does not have 10 words. *)
Lemma scenario_vocabulary_not_ten :
  List.length (vocabulary scenario_train) <> 10%nat.
Proof. vm_compute. discriminate. Qed.

(** C6, amended: the vocabulary of the scenario is made of the 9 distinct
    words among the 10 tokens of the three cleaned messages ([you] occurs in
    two of them and is counted once), and [classify] returns spam for
    [win money] with [alpha = 1], its scores being 1/108 for spam and 2/675
    for ham. *)
Theorem scenario_one :
  vocabulary scenario_train
  = ["hello"; "how"; "are"; "you"; "win"; "money"; "now"; "see"; "tomorrow"]
  /\ n_vocab scenario_train = 9%Z
  /\ List.length (collect_words (messages scenario_train)) = 10%nat
  /\ (exists a b,
        score_spam scenario_train "win money" 1 = Val (Fin a)
        /\ score_ham scenario_train "win money" 1 = Val (Fin b)
        /\ (a == 1 # 108)%Q /\ (b == 2 # 675)%Q)
  /\ classify scenario_train "win money" 1 = Val (Some spam).
Proof.
  split; [reflexivity|]. split; [reflexivity|]. split; [reflexivity|].
  split; [|reflexivity].
  eexists. eexists. split; [reflexivity|]. split; [reflexivity|].
  split; reflexivity.
Qed.

(** * Further properties of the spam filter *)

(** ** Sizes of the vocabularies and of the joined table *)

Lemma vocabulary_joined_perm (spam_train : list message) :
  Permutation (vocabulary spam_train) (joined_words spam_train).
Proof.
  apply NoDup_Permutation.
  - apply unique_NoDup.
  - apply joined_words_NoDup.
  - intros w. symmetry. apply joined_words_In.
Qed.

(** X1: the vocabulary has as many words as the spam vocabulary and the
    ham-only words together, so each class vocabulary is at most as large as
    the vocabulary and the vocabulary at most as large as both together; the
    joined table, when it exists, has exactly one row per vocabulary word. *)
Theorem vocabulary_sizes (spam_train : list message) :
  n_vocab spam_train
  = (n_spam_voc spam_train + Zlength_of (ham_only spam_train))%Z
  /\ (n_spam_voc spam_train <= n_vocab spam_train)%Z
  /\ (n_ham_voc spam_train <= n_vocab spam_train)%Z
  /\ (n_vocab spam_train <= n_spam_voc spam_train + n_ham_voc spam_train)%Z
  /\ (forall wc, word_counts spam_train = Val wc ->
        Zlength_of wc = n_vocab spam_train).
Proof.
  assert (E : n_vocab spam_train
              = (n_spam_voc spam_train + Zlength_of (ham_only spam_train))%Z).
  { unfold n_vocab, n_spam_voc, Zlength_of.
    rewrite (Permutation_length (vocabulary_joined_perm spam_train)).
    unfold joined_words, ham_only. rewrite length_app. lia. }
  assert (Hh : (n_ham_voc spam_train <= n_vocab spam_train)%Z).
  { unfold n_ham_voc, n_vocab, Zlength_of. apply inj_le.
    apply NoDup_incl_length; [apply unique_NoDup|].
    intros w Hw. apply vocabulary_union. now right. }
  assert (Ho : (Zlength_of (ham_only spam_train) <= n_ham_voc spam_train)%Z).
  { unfold ham_only, n_ham_voc, Zlength_of. apply inj_le, filter_length_le. }
  pose proof (Zlength_of_nonneg (ham_only spam_train)).
  repeat split; try lia.
  intros wc Hwc. unfold Zlength_of.
  rewrite <- (length_map word), (word_counts_words _ _ Hwc).
  unfold n_vocab, Zlength_of.
  now rewrite (Permutation_length (vocabulary_joined_perm spam_train)).
Qed.

(** ** Training without one of the classes *)

Lemma class_mes_nil (spam_train : list message) (c : label) :
  class_mes spam_train c = [] <-> count_label c spam_train = 0%Z.
Proof.
  unfold class_mes. rewrite <- count_label_tidy. unfold Zlength_of.
  destruct (filter (fun r => label_eqb (fst r) c) (tidy_train spam_train));
    cbn [map List.length]; split; intros H;
    try reflexivity; try discriminate; lia.
Qed.

Lemma word_counts_stop_iff (spam_train : list message) :
  word_counts spam_train = Stop
  <-> (count_label spam spam_train = 0%Z \/ count_label ham spam_train = 0%Z).
Proof.
  rewrite <- !class_mes_nil.
  change (class_mes spam_train spam) with (spam_mes spam_train).
  change (class_mes spam_train ham) with (ham_mes spam_train).
  rewrite <- (build_voc_nil (spam_mes spam_train)).
  rewrite <- (build_voc_nil (ham_mes spam_train)).
  fold (spam_voc spam_train). fold (ham_voc spam_train).
  split.
  - intros H.
    destruct (spam_voc spam_train) as [|s sv] eqn:Es; [now left|].
    destruct (ham_voc spam_train) as [|h hv] eqn:Eh; [now right|].
    destruct (word_counts_exists spam_train) as [wc Hwc];
      rewrite ?Es, ?Eh; try discriminate.
    congruence.
  - intros H. destruct (word_counts spam_train) as [|wc] eqn:E; [reflexivity|].
    apply word_counts_rows in E. tauto.
Qed.

(** X2: the chunk that builds the joined table stops exactly when the
    training set has no spam message or no ham message, and then every call
    of [classify] stops too; otherwise [classify] always returns. *)
Theorem training_needs_both_classes (spam_train : list message) :
  (word_counts spam_train = Stop
   <-> (count_label spam spam_train = 0%Z
        \/ count_label ham spam_train = 0%Z))
  /\ (word_counts spam_train = Stop ->
      forall msg alpha, classify spam_train msg alpha = Stop)
  /\ (word_counts spam_train <> Stop ->
      forall msg alpha, classify spam_train msg alpha <> Stop).
Proof.
  split; [apply word_counts_stop_iff|]. split.
  - intros H msg alpha. unfold classify. now rewrite H.
  - intros H msg alpha. unfold classify.
    destruct (word_counts spam_train); [congruence | discriminate].
Qed.

(** ** Order and repetition of the words of a message *)

Lemma prob_rows_same_tokens (spam_train : list message) (wc : list wc_row)
  (ws ws' : list string) (alpha : Q) :
  (forall w, In w ws <-> In w ws') ->
  prob_rows spam_train wc ws alpha = prob_rows spam_train wc ws' alpha.
Proof.
  intros Hw. unfold prob_rows, setdiff. f_equal; [f_equal | do 2 f_equal].
  - apply filter_ext. intros r. apply mem_ext, Hw.
  - apply filter_ext. intros w. f_equal. apply mem_ext, Hw.
Qed.

(** X3: the scores and the label of a message depend only on the set of its
    tokens: two messages with the same tokens, in whatever order and however
    often repeated, get the same scores and the same label. *)
Theorem classify_set_of_tokens (spam_train : list message)
  (m1 m2 : string) (alpha : Q) :
  (forall w, In w (str_split (normalize m1))
             <-> In w (str_split (normalize m2))) ->
  score_spam spam_train m1 alpha = score_spam spam_train m2 alpha
  /\ score_ham spam_train m1 alpha = score_ham spam_train m2 alpha
  /\ classify spam_train m1 alpha = classify spam_train m2 alpha.
Proof.
  intros H. unfold score_spam, score_ham, classify, scores.
  destruct (word_counts spam_train) as [|wc]; [auto|]. cbn [bind].
  rewrite (prob_rows_same_tokens _ wc _ _ alpha H). auto.
Qed.

Lemma classify_set_of_tokens_witness :
  (forall w, In w (str_split (normalize "win win money"))
             <-> In w (str_split (normalize "Money, WIN!")))
  /\ classify scenario_train "win win money" 1
     = classify scenario_train "Money, WIN!" 1.
Proof.
  assert (H : forall w, In w (str_split (normalize "win win money"))
                        <-> In w (str_split (normalize "Money, WIN!"))).
  { intros w. cbn. tauto. }
  split; [exact H|].
  apply (classify_set_of_tokens scenario_train _ _ 1 H).
Defined.

(** ** The score as a product over the words of the message *)

Lemma dbl_eq_refl (x : dbl) : dbl_eq x x.
Proof. destruct x; cbn; auto. apply Qeq_refl. Qed.

Lemma dbl_eq_trans (x y z : dbl) : dbl_eq x y -> dbl_eq y z -> dbl_eq x z.
Proof.
  destruct x, y, z; cbn; try tauto. apply Qeq_trans.
Qed.

Lemma dbl_mul_one_r (x : dbl) : dbl_eq (dbl_mul x (Fin 1)) x.
Proof. destruct x; cbn; auto. apply Qmult_1_r. Qed.

Lemma dbl_mul_eq_r (p y y' : dbl) :
  dbl_eq y y' -> dbl_eq (dbl_mul p y) (dbl_mul p y').
Proof.
  destruct y as [a| | |], y' as [b| | |]; cbn; try tauto;
    intros E; try apply dbl_eq_refl.
  destruct p as [c| | |]; cbn; auto.
  - now rewrite E.
  - rewrite E. apply dbl_eq_refl.
  - rewrite E. apply dbl_eq_refl.
Qed.

Lemma fold_ones_neutral {A : Type} (l : list A) (x : dbl) :
  dbl_eq (fold_left dbl_mul (map (fun _ : A => Fin 1) l) x) x.
Proof.
  revert x. induction l as [|a r IH]; intros x; cbn.
  - apply dbl_eq_refl.
  - eapply dbl_eq_trans; [apply IH | apply dbl_mul_one_r].
Qed.

Lemma prod_app_ones {A : Type} (v : list dbl) (l : list A) :
  dbl_eq (prod (v ++ map (fun _ : A => Fin 1) l)) (prod v).
Proof. unfold prod. rewrite fold_left_app. apply fold_ones_neutral. Qed.

(** X4: a word of the vocabulary that is not in the message contributes
    nothing: each score is, as a number, the prior times the product of the
    smoothed probabilities of the rows of the joined table whose word is a
    token of the message. *)
Theorem score_is_product (spam_train : list message) (wc : list wc_row)
  (msg : string) (alpha : Q) :
  word_counts spam_train = Val wc ->
  let present := present_rows wc (str_split (normalize msg)) in
  exists s h,
    score_spam spam_train msg alpha = Val s
    /\ score_ham spam_train msg alpha = Val h
    /\ dbl_eq s (dbl_mul (p_spam spam_train)
                   (prod (map (spam_prob spam_train alpha) present)))
    /\ dbl_eq h (dbl_mul (p_ham spam_train)
                   (prod (map (ham_prob spam_train alpha) present))).
Proof.
  intros H present. unfold score_spam, score_ham. rewrite H. cbn [bind].
  eexists. eexists. split; [reflexivity|]. split; [reflexivity|].
  unfold scores, prob_rows. cbn [fst snd].
  rewrite !map_app, !map_map. cbn [fst snd]. fold present.
  split; apply dbl_mul_eq_r, prod_app_ones.
Qed.

Lemma score_is_product_witness :
  exists wc,
    word_counts scenario_train = Val wc
    /\ exists s h,
         score_spam scenario_train "win money" 1 = Val s
         /\ score_ham scenario_train "win money" 1 = Val h
         /\ dbl_eq s (dbl_mul (p_spam scenario_train)
                        (prod (map (spam_prob scenario_train 1)
                                 [mk_row "win" 1 0; mk_row "money" 1 0])))
         /\ dbl_eq h (dbl_mul (p_ham scenario_train)
                        (prod (map (ham_prob scenario_train 1)
                                 [mk_row "win" 1 0; mk_row "money" 1 0]))).
Proof.
  eexists. split; [reflexivity|].
  apply (score_is_product scenario_train _ "win money" 1 eq_refl).
Defined.

(** ** Without smoothing *)

Lemma fold_mul_Fin (qs : list Q) (a : Q) :
  fold_left dbl_mul (map Fin qs) (Fin a) = Fin (fold_left Qmult qs a).
Proof.
  revert a. induction qs as [|q r IH]; intros a; cbn; [reflexivity|].
  apply IH.
Qed.

Lemma fold_Qmult_zero_acc (qs : list Q) (a : Q) :
  (a == 0)%Q -> (fold_left Qmult qs a == 0)%Q.
Proof.
  revert a. induction qs as [|q r IH]; intros a Ha; cbn; [exact Ha|].
  apply IH. rewrite Ha. apply Qmult_0_l.
Qed.

Lemma fold_Qmult_zero (qs : list Q) (a : Q) :
  (exists q, In q qs /\ (q == 0)%Q) -> (fold_left Qmult qs a == 0)%Q.
Proof.
  revert a. induction qs as [|q r IH]; intros a [z [Hz Ez]]; [contradiction|].
  cbn. destruct Hz as [->|Hz].
  - apply fold_Qmult_zero_acc. rewrite Ez. apply Qmult_0_r.
  - apply IH. eauto.
Qed.

Lemma fold_Qmult_nonneg (qs : list Q) (a : Q) :
  (0 <= a)%Q -> Forall (fun q => (0 <= q)%Q) qs ->
  (0 <= fold_left Qmult qs a)%Q.
Proof.
  intros Ha H. revert a Ha. induction H as [|q r Hq Hr IH]; intros a Ha; cbn.
  - exact Ha.
  - apply IH. now apply Qmult_le_0_compat.
Qed.

Lemma laplace_zero_alpha (count n_c n_v : Z) :
  (1 <= n_c)%Z -> (0 <= count)%Z ->
  (0 <= laplace count n_c n_v 0)%Q
  /\ (count = 0%Z -> (laplace count n_c n_v 0 == 0)%Q).
Proof.
  intros Hc Hn. unfold laplace.
  assert (D : (0 < inject_Z n_c + 0 * inject_Z n_v)%Q).
  { rewrite Qmult_0_l, Qplus_0_r. apply inject_Z_pos. lia. }
  split.
  - apply Qdiv_nonneg; [|exact D].
    rewrite Qplus_0_r. apply inject_Z_nonneg, Hn.
  - intros ->. unfold Qdiv. apply Qmult_0_l.
Qed.

(** With [alpha = 0] the rows of a classification are the plain ratios
    [count / N_c_vocab] followed by ones. *)
Lemma prob_rows_zero_alpha (spam_train : list message) (wc : list wc_row)
  (words : list string) :
  word_counts spam_train = Val wc ->
  map fst (prob_rows spam_train wc words 0)
  = map Fin
      (map (fun r => laplace (spam_count r) (n_spam_voc spam_train)
                       (n_vocab spam_train) 0) (present_rows wc words)
       ++ map (fun _ => 1%Q) (setdiff (vocabulary spam_train) words))
  /\ map snd (prob_rows spam_train wc words 0)
     = map Fin
         (map (fun r => laplace (ham_count r) (n_ham_voc spam_train)
                          (n_vocab spam_train) 0) (present_rows wc words)
          ++ map (fun _ => 1%Q) (setdiff (vocabulary spam_train) words)).
Proof.
  intros H. unfold prob_rows, present_rows.
  rewrite !map_app, !map_map. cbn [fst snd].
  split; f_equal; apply map_ext; intros r;
    apply (probs_laplace _ _ r 0 H); discriminate.
Qed.

Lemma present_rows_In (spam_train : list message) (wc : list wc_row)
  (words : list string) (r : wc_row) :
  In r wc -> In (word r) words -> In r (present_rows wc words).
Proof.
  intros Hr Hw. apply filter_In. split; [exact Hr | now apply mem_In].
Qed.

Lemma ratios_nonneg (spam_train : list message) (wc : list wc_row)
  (words : list string) :
  word_counts spam_train = Val wc ->
  Forall (fun q => (0 <= q)%Q)
    (map (fun r => laplace (spam_count r) (n_spam_voc spam_train)
                     (n_vocab spam_train) 0) (present_rows wc words)
     ++ map (fun _ => 1%Q) (setdiff (vocabulary spam_train) words))
  /\ Forall (fun q => (0 <= q)%Q)
       (map (fun r => laplace (ham_count r) (n_ham_voc spam_train)
                        (n_vocab spam_train) 0) (present_rows wc words)
        ++ map (fun _ => 1%Q) (setdiff (vocabulary spam_train) words)).
Proof.
  intros H. destruct (class_voc_sizes _ _ H) as [Hs [Hh _]].
  split; apply Forall_app; split; apply Forall_forall; intros q Hq;
    apply in_map_iff in Hq; destruct Hq as [r [<- Hr]];
    try discriminate;
    apply filter_In in Hr; destruct Hr as [Hr _];
    destruct (word_counts_In _ _ _ H Hr) as [_ [Cs Ch]].
  - apply laplace_zero_alpha; [exact Hs|].
    rewrite Cs. apply count_word_nonneg.
  - apply laplace_zero_alpha; [exact Hh|].
    rewrite Ch. apply count_word_nonneg.
Qed.

(** X5: with [alpha = 0] the scores are non-negative numbers, and a token of
    the message whose count is 0 in a class makes the score of that class 0:
    after a zero spam count the label is ham exactly when the ham score is
    positive, and after a zero ham count the label is spam. *)
Theorem zero_count_without_smoothing (spam_train : list message)
  (wc : list wc_row) (msg : string) (r : wc_row) :
  word_counts spam_train = Val wc ->
  In r wc ->
  In (word r) (str_split (normalize msg)) ->
  exists a b,
    score_spam spam_train msg 0 = Val (Fin a)
    /\ score_ham spam_train msg 0 = Val (Fin b)
    /\ (0 <= a)%Q /\ (0 <= b)%Q
    /\ (spam_count r = 0%Z ->
        (a == 0)%Q
        /\ (classify spam_train msg 0 = Val (Some ham) <-> (0 < b)%Q))
    /\ (ham_count r = 0%Z ->
        (b == 0)%Q /\ classify spam_train msg 0 = Val (Some spam)).
Proof.
  intros H Hr Hw.
  set (words := str_split (normalize msg)) in *.
  destruct (prob_rows_zero_alpha _ _ words H) as [Es Eh].
  destruct (ratios_nonneg _ _ words H) as [Ns Nh].
  destruct (class_voc_sizes _ _ H) as [Hs [Hh [_ Hne]]].
  destruct (priors_fin _ Hne) as [Ps Ph].
  pose proof (present_rows_In spam_train _ _ _ Hr Hw) as Hp.
  unfold score_spam, score_ham, classify, scores. rewrite H. cbn [bind].
  fold words. unfold prod. rewrite Es, Eh, !fold_mul_Fin, Ps, Ph.
  cbn [fst snd dbl_mul dbl_ge ifelse_label].
  set (ps := (inject_Z (count_label spam spam_train)
              / inject_Z (Zlength_of spam_train))%Q).
  set (ph := (inject_Z (count_label ham spam_train)
              / inject_Z (Zlength_of spam_train))%Q).
  set (fs := fold_left Qmult _ 1%Q). set (fh := fold_left Qmult _ 1%Q).
  assert (Hn : (0 < inject_Z (Zlength_of spam_train))%Q)
    by apply inject_Z_pos, Zlength_of_pos, Hne.
  assert (Hps : (0 <= ps)%Q).
  { apply Qdiv_nonneg; [|exact Hn]. apply inject_Z_nonneg.
    unfold count_label. apply Zlength_of_nonneg. }
  assert (Hph : (0 <= ph)%Q).
  { apply Qdiv_nonneg; [|exact Hn]. apply inject_Z_nonneg.
    unfold count_label. apply Zlength_of_nonneg. }
  assert (Hfs : (0 <= fs)%Q) by (apply fold_Qmult_nonneg; [discriminate|exact Ns]).
  assert (Hfh : (0 <= fh)%Q) by (apply fold_Qmult_nonneg; [discriminate|exact Nh]).
  assert (Ha : (0 <= ps * fs)%Q) by now apply Qmult_le_0_compat.
  assert (Hb : (0 <= ph * fh)%Q) by now apply Qmult_le_0_compat.
  exists (ps * fs)%Q, (ph * fh)%Q.
  split; [reflexivity|]. split; [reflexivity|].
  split; [exact Ha|]. split; [exact Hb|]. split.
  - intros Z0.
    assert (E0 : (fs == 0)%Q).
    { apply fold_Qmult_zero. eexists. split.
      - apply in_or_app. left. apply in_map_iff. exists r. split; [reflexivity|].
        exact Hp.
      - destruct (word_counts_In _ _ _ H Hr) as [_ [Cs _]].
        apply laplace_zero_alpha; [exact Hs | | exact Z0].
        rewrite Cs. apply count_word_nonneg. }
    assert (A0 : (ps * fs == 0)%Q) by (rewrite E0; apply Qmult_0_r).
    split; [exact A0|].
    destruct (Qle_bool (ph * fh) (ps * fs)) eqn:L; cbn.
    + apply Qle_bool_iff in L. rewrite A0 in L. split; [discriminate|].
      intros C. exfalso. apply (Qlt_not_le _ _ C), L.
    + split; [|reflexivity]. intros _. apply Qnot_le_lt. intros C.
      rewrite <- A0 in C. apply Qle_bool_iff in C. congruence.
  - intros Z0.
    assert (E0 : (fh == 0)%Q).
    { apply fold_Qmult_zero. eexists. split.
      - apply in_or_app. left. apply in_map_iff. exists r. split; [reflexivity|].
        exact Hp.
      - destruct (word_counts_In _ _ _ H Hr) as [_ [_ Ch]].
        apply laplace_zero_alpha; [exact Hh | | exact Z0].
        rewrite Ch. apply count_word_nonneg. }
    assert (B0 : (ph * fh == 0)%Q) by (rewrite E0; apply Qmult_0_r).
    split; [exact B0|].
    assert (L : Qle_bool (ph * fh) (ps * fs) = true).
    { apply Qle_bool_iff. rewrite B0. exact Ha. }
    rewrite L. reflexivity.
Qed.

Lemma zero_count_without_smoothing_witness :
  exists wc,
    word_counts scenario_train = Val wc
    /\ In (mk_row "hello" 0 1) wc
    /\ In "hello" (str_split (normalize "Hello!"))
    /\ exists a b,
         score_spam scenario_train "Hello!" 0 = Val (Fin a)
         /\ score_ham scenario_train "Hello!" 0 = Val (Fin b)
         /\ (0 <= a)%Q /\ (0 <= b)%Q.
Proof.
  eexists. split; [reflexivity|].
  assert (Hin : In (mk_row "hello" 0 1)
                  [mk_row "win" 1 0; mk_row "money" 1 0; mk_row "now" 1 0;
                   mk_row "hello" 0 1; mk_row "how" 0 1; mk_row "are" 0 1;
                   mk_row "you" 0 2; mk_row "see" 0 1; mk_row "tomorrow" 0 1])
    by (simpl; tauto).
  assert (Hw : In "hello" (str_split (normalize "Hello!")))
    by (left; reflexivity).
  split; [exact Hin|]. split; [exact Hw|].
  destruct (zero_count_without_smoothing scenario_train _ "Hello!"
              (mk_row "hello" 0 1) eq_refl Hin Hw)
    as [a [b [Ea [Eb [Ha [Hb _]]]]]].
  exists a, b. auto.
Defined.

(** ** Candidates of the tuning loop *)

Lemma map_res_app {A B : Type} (f : A -> res B) (l1 l2 : list A) :
  map_res f (l1 ++ l2)
  = (a <- map_res f l1 ;; b <- map_res f l2 ;; Val (a ++ b)).
Proof.
  induction l1 as [|x r IH]; cbn.
  - destruct (map_res f l2); reflexivity.
  - destruct (f x); cbn; [reflexivity|]. rewrite IH.
    destruct (map_res f r); cbn; [reflexivity|].
    destruct (map_res f l2); reflexivity.
Qed.

Lemma combine_app_same {A B : Type} (l1 l2 : list A) (k1 k2 : list B) :
  List.length l1 = List.length k1 ->
  combine (l1 ++ l2) (k1 ++ k2) = combine l1 k1 ++ combine l2 k2.
Proof.
  revert k1. induction l1 as [|a r IH]; intros [|b k] H; try discriminate.
  - reflexivity.
  - cbn. f_equal. apply IH. now injection H.
Qed.

(** X6: the candidates do not influence each other: the table of a grid made
    of two parts is the table of the first part followed by the table of the
    second, and the loop stops as soon as one of the parts stops. *)
Theorem tune_app (spam_train : list message) (g1 g2 : list Q)
  (spam_cv : list message) :
  tune spam_train (g1 ++ g2) spam_cv
  = (t1 <- tune spam_train g1 spam_cv ;;
     t2 <- tune spam_train g2 spam_cv ;;
     Val (t1 ++ t2)).
Proof.
  rewrite !tune_map_res, map_res_app.
  destruct (map_res (cv_accuracy_at spam_train spam_cv) g1) as [|l1] eqn:E1;
    cbn [bind]; [reflexivity|].
  destruct (map_res (cv_accuracy_at spam_train spam_cv) g2) as [|l2] eqn:E2;
    cbn [bind]; [reflexivity|].
  f_equal. apply combine_app_same.
  apply map_res_val in E1. now apply Forall2_length in E1.
Qed.

(** * Properties of the evaluator of numerical expressions *)

Module EvaluatorFacts.
Import Evaluator.

(** ** Tokens *)

Lemma word_token_cons (c : ascii) (t : string) :
  word_token (String c t) = true ->
  is_space c = false /\ (t = EmptyString \/ word_token t = true).
Proof.
  unfold word_token. cbn. intros H. apply andb_true_iff in H.
  destruct H as [Hc Ht]. apply negb_true_iff in Hc. split; [exact Hc|].
  destruct t as [|d t']; [now left|]. right. exact Ht.
Qed.

Lemma tokenize_token_space (t s : string) :
  word_token t = true ->
  tokenize (String.append t (String Chars.space s)) = t :: tokenize s.
Proof.
  destruct t as [|c t]; [discriminate|]. revert c.
  induction t as [|d t IH]; intros c H;
    destruct (word_token_cons _ _ H) as [Hc Ht].
  - cbn [String.append tokenize]. rewrite Hc. reflexivity.
  - destruct Ht as [Ht|Ht]; [discriminate|].
    destruct (word_token_cons _ _ Ht) as [Hd _].
    change (String.append (String c (String d t)) (String Chars.space s))
      with (String c (String.append (String d t) (String Chars.space s))).
    cbn [tokenize]. rewrite Hc.
    change (String.append (String d t) (String Chars.space s))
      with (String d (String.append t (String Chars.space s))) at 1.
    cbv iota. rewrite Hd.
    change (String d (String.append t (String Chars.space s)))
      with (String.append (String d t) (String Chars.space s)).
    rewrite (IH d Ht). reflexivity.
Qed.

Lemma tokenize_cons (c : ascii) (r : string) :
  tokenize (String c r)
  = if is_space c then tokenize r
    else match r with
         | EmptyString => [String c EmptyString]
         | String d _ =>
             if is_space d then String c EmptyString :: tokenize r
             else match tokenize r with
                  | t :: ts => String c t :: ts
                  | [] => [String c EmptyString]
                  end
         end.
Proof. reflexivity. Qed.

Lemma tokenize_token (t : string) :
  word_token t = true -> tokenize t = [t].
Proof.
  destruct t as [|c t]; [discriminate|]. revert c.
  induction t as [|d t IH]; intros c H;
    destruct (word_token_cons _ _ H) as [Hc Ht].
  - cbn. rewrite Hc. reflexivity.
  - destruct Ht as [Ht|Ht]; [discriminate|].
    destruct (word_token_cons _ _ Ht) as [Hd _].
    rewrite tokenize_cons, Hc, Hd, (IH d Ht). reflexivity.
Qed.

Lemma tokenize_join_tokens (ts : list string) :
  Forall (fun t => word_token t = true) ts -> tokenize (join ts) = ts.
Proof.
  induction 1 as [|t r Ht Hr IH]; [reflexivity|].
  cbn [join]. destruct r as [|t' r'].
  - apply tokenize_token, Ht.
  - rewrite (tokenize_token_space _ _ Ht), IH. reflexivity.
Qed.

Lemma tokenize_word_tokens (s : string) :
  Forall (fun t => word_token t = true) (tokenize s).
Proof.
  induction s as [|c r IH]; [constructor|].
  rewrite tokenize_cons. destruct (is_space c) eqn:Ec; [exact IH|].
  assert (H1 : word_token (String c EmptyString) = true).
  { unfold word_token. cbn. now rewrite Ec. }
  destruct r as [|d r']; [repeat constructor; exact H1|].
  destruct (is_space d) eqn:Ed; [constructor; assumption|].
  destruct (tokenize (String d r')) as [|t ts];
    [repeat constructor; exact H1|].
  inversion IH as [|? ? Ht Hts]; subst. constructor; [|exact Hts].
  unfold word_token in *. cbn. rewrite Ec. cbn.
  apply andb_true_iff in Ht. tauto.
Qed.

(** X7: [tokenize] yields tokens that are not empty and hold no white space,
    and such tokens survive being joined by single spaces and tokenized
    again; so [tokenize] of the joined tokens of a string gives the tokens
    of the string. *)
Theorem tokenize_join (ts : list string) :
  Forall (fun t => word_token t = true) ts ->
  tokenize (join ts) = ts
  /\ forall s, Forall (fun t => word_token t = true) (tokenize s)
               /\ tokenize (join (tokenize s)) = tokenize s.
Proof.
  intros H. split; [apply tokenize_join_tokens, H|].
  intros s. split; [apply tokenize_word_tokens|].
  apply tokenize_join_tokens, tokenize_word_tokens.
Qed.

Lemma tokenize_join_witness :
  Forall (fun t => word_token t = true) ["12"; "2"; "+"]
  /\ tokenize (join ["12"; "2"; "+"]) = ["12"; "2"; "+"].
Proof.
  assert (H : Forall (fun t => word_token t = true) ["12"; "2"; "+"])
    by (repeat constructor).
  split; [exact H | exact (proj1 (tokenize_join _ H))].
Defined.

(** ** [Stack.peek] and [Stack.pop] on linked nodes *)

Section NodeFacts.

Variable A : Type.

Lemma linked_from_set_next (h : nat -> Nodes.node A) (p : nat)
  (v nxt : option nat) (path : list nat) :
  ~ In p path ->
  Nodes.linked_from A h nxt path ->
  Nodes.linked_from A (Nodes.set_next A h p v) nxt path.
Proof.
  revert nxt. induction path as [|a r IH]; intros nxt Hp H; [exact I|].
  cbn in *. destruct H as [H1 [H2 H3]].
  assert (E : Nat.eqb a p = false) by (apply Nat.eqb_neq; intros ->; tauto).
  unfold Nodes.set_next at 1 2. rewrite E.
  split; [exact H1|]. split; [exact H2|]. apply IH; tauto.
Qed.

Lemma data_set_next (h : nat -> Nodes.node A) (p : nat) (v : option nat)
  (a : nat) :
  Nodes.data A (Nodes.set_next A h p v a) = Nodes.data A (h a).
Proof. unfold Nodes.set_next. destruct (Nat.eqb a p); reflexivity. Qed.

(** X8: on a well-formed doubly linked list [pop] returns the data of the
    tail node and leaves the well-formed list of the other nodes, [peek]
    returns the same data, and both raise on the empty list. *)
Theorem pop_on_nodes (self : Nodes.linked A) (path : list nat) (l : list A) :
  Nodes.repr A self path l ->
  match l with
  | [] => Nodes.peek A self = Stop /\ Nodes.pop A self = Stop
  | x :: r =>
      Nodes.peek A self = Val x
      /\ exists self',
           Nodes.pop A self = Val (x, self')
           /\ Nodes.repr A self' (List.tl path) r
  end.
Proof.
  intros [Hlen [Hnd [Hdata [Htail [Hhead Hlinks]]]]].
  destruct path as [|a path]; cbn in Hdata; subst l.
  - cbn in Htail. unfold Nodes.peek, Nodes.pop. rewrite Htail. auto.
  - cbn in Htail. unfold Nodes.peek, Nodes.pop. rewrite Htail.
    split; [reflexivity|].
    cbn [Nodes.linked_from] in Hlinks. destruct Hlinks as [Hn [Hp Hl]].
    inversion Hnd as [|? ? Ha Hnd']; subst.
    destruct path as [|b path].
    + cbn in Hlen. rewrite Hlen. cbn [Z.eqb Pos.eqb].
      eexists. split; [reflexivity|].
      unfold Nodes.repr. cbn. repeat split; auto using NoDup_nil.
    + assert (E : (Nodes.length A self =? 1)%Z = false).
      { apply Z.eqb_neq. rewrite Hlen. cbn [List.length]. lia. }
      rewrite E. cbn in Hp. rewrite Hp.
      eexists. split; [reflexivity|].
      cbn [List.tl]. unfold Nodes.repr. cbn [Nodes.heap Nodes.head
        Nodes.tail Nodes.length].
      inversion Hnd' as [|? ? Hb Hnd'']; subst.
      split; [rewrite Hlen; cbn [List.length]; lia|].
      split; [exact Hnd'|].
      split; [apply map_ext; intros x; apply data_set_next|].
      split; [reflexivity|].
      split.
      { rewrite Hhead.
        change (rev (a :: b :: path)) with ((rev path ++ [b]) ++ [a]).
        change (rev (b :: path)) with (rev path ++ [b]).
        destruct (rev path ++ [b]) as [|c q] eqn:Eq.
        - now apply app_eq_nil in Eq.
        - reflexivity. }
      cbn [Nodes.linked_from] in Hl |- *. destruct Hl as [_ [Hpb Hl]].
      unfold Nodes.set_next at 1 2. rewrite Nat.eqb_refl. cbn.
      split; [reflexivity|]. split; [exact Hpb|].
      apply linked_from_set_next; assumption.
Qed.

End NodeFacts.

Lemma pop_on_nodes_witness :
  let h := fun a : nat =>
             match a with
             | 0%nat => Nodes.mk_node Z 10%Z (Some 1%nat) None
             | _ => Nodes.mk_node Z 20%Z None (Some 0%nat)
             end in
  let self := Nodes.mk_linked Z h (Some 0%nat) (Some 1%nat) 2 in
  Nodes.repr Z self [1%nat; 0%nat] [20%Z; 10%Z]
  /\ Nodes.peek Z self = Val 20%Z.
Proof.
  intros h self.
  assert (H : Nodes.repr Z self [1%nat; 0%nat] [20%Z; 10%Z]).
  { unfold Nodes.repr. cbn. repeat split; auto.
    repeat constructor; cbn; intuition discriminate. }
  split; [exact H|].
  exact (proj1 (pop_on_nodes Z self _ _ H)).
Defined.

(** ** Evaluation of postfix expressions *)

Lemma operand_token (t : string) :
  operand t = true ->
  word_token t = true /\ String.eqb t "(" = false /\ String.eqb t ")" = false
  /\ precedence t = None.
Proof.
  unfold operand. intros H. andb_hyp H.
  apply negb_true_iff in H1, H2.
  destruct (precedence t); [discriminate|].
  repeat split; try assumption.
  unfold word_token. now rewrite H, H3.
Qed.

Lemma precedence_none (t : string) :
  precedence t = None ->
  String.eqb t "+" = false /\ String.eqb t "-" = false
  /\ String.eqb t "*" = false /\ String.eqb t "/" = false
  /\ String.eqb t "**" = false.
Proof.
  unfold precedence.
  destruct (String.eqb t "+"); [discriminate|].
  destruct (String.eqb t "-"); [discriminate|].
  destruct (String.eqb t "*"); [discriminate|].
  destruct (String.eqb t "/"); [discriminate|].
  destruct (String.eqb t "**"); [discriminate|]. auto.
Qed.

Lemma precedence_some (t : string) (q : nat) :
  precedence t = Some q -> exists o, t = symbol o /\ q = prec o.
Proof.
  unfold precedence.
  destruct (String.eqb t "+") eqn:E1;
    [apply String.eqb_eq in E1; subst; intros H; injection H as <-;
     now exists Plus|].
  destruct (String.eqb t "-") eqn:E2;
    [apply String.eqb_eq in E2; subst; intros H; injection H as <-;
     now exists Minus|].
  destruct (String.eqb t "*") eqn:E3;
    [apply String.eqb_eq in E3; subst; intros H; injection H as <-;
     now exists Times|].
  destruct (String.eqb t "/") eqn:E4;
    [apply String.eqb_eq in E4; subst; intros H; injection H as <-;
     now exists Divide|].
  destruct (String.eqb t "**") eqn:E5;
    [apply String.eqb_eq in E5; subst; intros H; injection H as <-;
     now exists Power|].
  discriminate.
Qed.

Lemma precedence_symbol (o : op) : precedence (symbol o) = Some (prec o).
Proof. destruct o; reflexivity. Qed.

Lemma symbol_word_token (o : op) : word_token (symbol o) = true.
Proof. destruct o; reflexivity. Qed.

Lemma postfix_word_tokens (e : expr) :
  operands_ok e = true ->
  Forall (fun t => word_token t = true) (postfix e).
Proof.
  induction e as [t|o l IHl r IHr|e IH]; cbn; intros H.
  - repeat constructor. apply operand_token, H.
  - apply andb_true_iff in H. destruct H as [Hl Hr].
    apply Forall_app. split; [auto|]. apply Forall_app. split; [auto|].
    repeat constructor. apply symbol_word_token.
  - auto.
Qed.

Section PostfixFacts.

Context {L : LinkedList}.
Variable num : Type.
Variable float : string -> res num.
Variables py_sub py_add py_mul py_div py_pow : num -> num -> res num.

Local Abbreviation step :=
  (postfix_step num float py_sub py_add py_mul py_div py_pow).
Local Abbreviation loop :=
  (postfix_loop num float py_sub py_add py_mul py_div py_pow).
Local Abbreviation eval_postfix :=
  (evaluate_postfix num float py_sub py_add py_mul py_div py_pow).
Local Abbreviation val := (value num float py_sub py_add py_mul py_div py_pow).
Local Abbreviation apply := (apply_op num py_sub py_add py_mul py_div py_pow).

Lemma loop_app (t1 t2 : list string) (stack : list num) :
  loop (t1 ++ t2) stack = (s <- loop t1 stack ;; loop t2 s).
Proof.
  revert stack. induction t1 as [|t r IH]; intros stack; [reflexivity|].
  cbn. destruct (step stack t); cbn; [reflexivity | apply IH].
Qed.

Lemma step_operand (t : string) (stack : list num) :
  precedence t = None ->
  step stack t = (x <- float t ;; Val (x :: stack)).
Proof.
  intros H. destruct (precedence_none t H) as [E1 [E2 [E3 [E4 E5]]]].
  unfold postfix_step. rewrite E1, E2, E3, E4, E5.
  destruct (float t); cbn; [reflexivity|].
  unfold push. now rewrite ll_append_cons.
Qed.

Lemma step_symbol (o : op) (stack : list num) :
  step stack (symbol o) = process_binary num (apply o) stack.
Proof. destruct o; reflexivity. Qed.

Lemma process_binary_two (f : num -> num -> res num) (a b : num)
  (stack : list num) :
  process_binary num f (b :: a :: stack) = (r <- f a b ;; Val (r :: stack)).
Proof.
  unfold process_binary. cbn. destruct (f a b); cbn; [reflexivity|].
  unfold push. now rewrite ll_append_cons.
Qed.

Lemma loop_postfix (e : expr) (stack : list num) :
  operands_ok e = true ->
  loop (postfix e) stack = (v <- val e ;; Val (v :: stack)).
Proof.
  revert stack. induction e as [t|o l IHl r IHr|e IH]; intros stack H; cbn.
  - rewrite step_operand by apply operand_token, H.
    destruct (float t); reflexivity.
  - cbn in H. apply andb_true_iff in H. destruct H as [Hl Hr].
    rewrite loop_app, (IHl stack Hl).
    destruct (val l) as [|a]; cbn [bind]; [reflexivity|].
    rewrite loop_app, (IHr (a :: stack) Hr).
    destruct (val r) as [|b]; cbn [bind]; [reflexivity|].
    cbn. rewrite step_symbol, process_binary_two.
    destruct (apply o a b); reflexivity.
  - apply IH, H.
Qed.

Lemma loop_postfix_list (es : list expr) (stack : list num) :
  forallb operands_ok es = true ->
  loop (flat_map postfix es) stack
  = (vs <- map_res val es ;; Val (rev vs ++ stack)).
Proof.
  revert stack. induction es as [|e r IH]; intros stack H; [reflexivity|].
  cbn in H. apply andb_true_iff in H. destruct H as [He Hr].
  cbn [flat_map map_res]. rewrite loop_app, (loop_postfix e stack He).
  destruct (val e) as [|v]; cbn [bind]; [reflexivity|].
  rewrite (IH (v :: stack) Hr).
  destruct (map_res val r) as [|vs]; cbn [bind]; [reflexivity|].
  cbn [rev]. now rewrite <- app_assoc.
Qed.

(** X9: on the postfix notation of an expression [evaluate_postfix] returns
    the value of the expression, and raises when an operand or an operation
    of it does.  On several expressions in a row it returns the value of the
    last one and leaves the others on the stack, without a complaint. *)
Theorem evaluate_postfix_value (es : list expr) :
  forallb operands_ok es = true ->
  eval_postfix (join (flat_map postfix es))
  = (vs <- map_res val es ;;
     match rev vs with
     | [] => Stop
     | v :: _ => Val v
     end).
Proof.
  intros H. unfold evaluate_postfix.
  rewrite tokenize_join_tokens.
  2:{ apply Forall_flat_map, Forall_forall. intros e He.
      apply postfix_word_tokens.
      rewrite forallb_forall in H. apply H, He. }
  rewrite ll_new_nil, (loop_postfix_list es [] H).
  destruct (map_res val es) as [|vs]; cbn [bind]; [reflexivity|].
  rewrite app_nil_r. destruct (rev vs); reflexivity.
Qed.

Lemma step_length (t : string) (stack stack' : list num) :
  step stack t = Val stack' ->
  if is_operator t
  then (2 <= List.length stack
        /\ S (List.length stack') = List.length stack)%nat
  else List.length stack' = S (List.length stack).
Proof.
  unfold is_operator. destruct (precedence t) as [q|] eqn:E.
  - destruct (precedence_some t q E) as [o [-> _]].
    rewrite step_symbol.
    destruct stack as [|b [|a r]]; try discriminate.
    rewrite process_binary_two.
    destruct (apply o a b); [discriminate|]. cbn.
    intros H. injection H as <-. cbn. lia.
  - rewrite (step_operand t stack E).
    destruct (float t); [discriminate|]. cbn.
    intros H. injection H as <-. reflexivity.
Qed.

Lemma loop_length (ts : list string) (stack stack' : list num) :
  loop ts stack = Val stack' ->
  (List.length stack' + List.length (filter is_operator ts)
   = List.length stack
     + List.length (filter (fun t => negb (is_operator t)) ts))%nat
  /\ (ts <> [] -> 1 <= List.length stack')%nat.
Proof.
  revert stack. induction ts as [|t r IH]; intros stack H.
  - cbn in H. injection H as <-. cbn. split; [lia | congruence].
  - cbn in H. destruct (step stack t) as [|s1] eqn:E; [discriminate|].
    cbn in H. destruct (IH s1 H) as [H1 H2].
    pose proof (step_length t stack s1 E) as HS.
    cbn [filter]. destruct (is_operator t); cbn [negb List.length].
    + split; [lia|]. intros _. destruct r as [|t' r'].
      * cbn in H. injection H as <-. lia.
      * apply H2. discriminate.
    + split; [lia|]. intros _. destruct r as [|t' r'].
      * cbn in H. injection H as <-. lia.
      * apply H2. discriminate.
Qed.

(** X10: [evaluate_postfix] returns a value only when, in every part of the
    expression read so far, the operands outnumber the operators: otherwise
    an operator finds fewer than two values on the stack, or the final [pop]
    finds none, and the evaluation raises. *)
Theorem evaluate_postfix_needs_operands (expression : string) (v : num) :
  eval_postfix expression = Val v ->
  tokenize expression <> []
  /\ forall p q, tokenize expression = p ++ q -> p <> [] ->
       (List.length (filter is_operator p)
        < List.length (filter (fun t => negb (is_operator t)) p))%nat.
Proof.
  unfold evaluate_postfix. rewrite ll_new_nil.
  destruct (loop (tokenize expression) []) as [|s] eqn:E; [discriminate|].
  cbn [bind]. destruct s as [|x s]; [discriminate|]. intros _. split.
  - intros N. rewrite N in E. discriminate.
  - intros p q Hpq Hp. rewrite Hpq, loop_app in E.
    destruct (loop p []) as [|s1] eqn:E1; [discriminate|].
    destruct (loop_length p [] s1 E1) as [H1 H2].
    specialize (H2 Hp). cbn [List.length] in H1. lia.
Qed.

End PostfixFacts.

Lemma evaluate_postfix_value_witness :
  forallb operands_ok [Bin Minus (Num "4") (Num "6")] = true
  /\ evaluate_postfix Q q_float q_sub q_add q_mul q_div q_pow "4 6 -"
     = Val (4 - 6)%Q.
Proof.
  split; [reflexivity|].
  exact (evaluate_postfix_value Q q_float q_sub q_add q_mul q_div q_pow
           [Bin Minus (Num "4") (Num "6")] eq_refl).
Defined.

Lemma evaluate_postfix_needs_operands_witness :
  evaluate_postfix Q q_float q_sub q_add q_mul q_div q_pow "4 6 -"
  = Val (4 - 6)%Q
  /\ tokenize "4 6 -" <> [].
Proof.
  split; [reflexivity|].
  exact (proj1 (evaluate_postfix_needs_operands Q q_float q_sub q_add q_mul
                  q_div q_pow "4 6 -" _ eq_refl)).
Defined.

(** ** From infix to postfix notation *)

Lemma infix_word_tokens (e : expr) :
  operands_ok e = true ->
  Forall (fun t => word_token t = true) (infix e).
Proof.
  induction e as [t|o l IHl r IHr|e IH]; cbn; intros H.
  - repeat constructor. apply operand_token, H.
  - apply andb_true_iff in H. destruct H as [Hl Hr].
    apply Forall_app. split; [auto|]. constructor; [|auto].
    apply symbol_word_token.
  - constructor; [reflexivity|]. apply Forall_app. split; [auto|].
    repeat constructor.
Qed.

Section InfixFacts.

Context {L : LinkedList}.

Lemma infix_loop_app (t1 t2 : list string) (st : list string * list string) :
  infix_loop (t1 ++ t2) st = (st' <- infix_loop t1 st ;; infix_loop t2 st').
Proof.
  revert st. induction t1 as [|t r IH]; intros st; [reflexivity|].
  cbn. destruct (infix_step st t); cbn; [reflexivity | apply IH].
Qed.

Lemma binds_below_mono (stack : list string) (a b : nat) :
  (a <= b)%nat -> binds_below stack a -> binds_below stack b.
Proof.
  unfold binds_below. destruct stack as [|x r]; [auto|].
  destruct (precedence x); [lia | auto].
Qed.

Lemma binds_from_mono (a b : nat) (t : string) :
  (a <= b)%nat -> binds_from b t -> binds_from a t.
Proof. intros H [q [E Hq]]. exists q. split; [exact E | lia]. Qed.

Lemma no_operator_above_three (t : string) : ~ binds_from 4 t.
Proof.
  intros [q [E Hq]]. destruct (precedence_some t q E) as [o [_ ->]].
  destruct o; cbn in Hq; lia.
Qed.

Lemma process_operator_stops (stack postfix : list string)
  (operator : string) (q : nat) :
  binds_below stack q -> precedence operator = Some q ->
  process_operator stack postfix operator = Val (operator :: stack, postfix).
Proof.
  intros Hb Hq. destruct stack as [|x r]; cbn.
  - rewrite ll_len_length. cbn. unfold push. now rewrite ll_append_cons.
  - rewrite ll_len_length. cbn. cbn in Hb.
    destruct (precedence x) as [pt|].
    + rewrite Hq. assert (E : (q <=? pt)%nat = false)
        by (apply Nat.leb_gt; exact Hb).
      rewrite E. unfold push. now rewrite ll_append_cons.
    + unfold push. now rewrite ll_append_cons.
Qed.

(** [process_operator] moves to the output the operators on top of the stack
    that bind at least as tightly as the new one. *)
Lemma process_operator_pops (k stack postfix : list string)
  (operator : string) (q : nat) :
  Forall (binds_from q) k -> binds_below stack q ->
  precedence operator = Some q ->
  process_operator (k ++ stack) postfix operator
  = Val (operator :: stack, postfix ++ k).
Proof.
  intros Hk Hb Hq. revert postfix.
  induction Hk as [|x k [qx [Ex Hx]] Hk IH]; intros postfix.
  - cbn [app]. rewrite app_nil_r. now apply process_operator_stops with q.
  - cbn [app process_operator]. rewrite ll_len_length. cbn [List.length Nat.ltb Nat.leb].
    rewrite Ex, Hq.
    assert (E : (q <=? qx)%nat = true) by (apply Nat.leb_le; exact Hx).
    rewrite E, IH, <- app_assoc. reflexivity.
Qed.

Lemma process_closing_pops (k stack postfix : list string) :
  Forall (fun t => String.eqb t "(" = false) k ->
  process_closing_parenthesis (k ++ "(" :: stack) postfix
  = Val (stack, postfix ++ k).
Proof.
  intros Hk. revert postfix. induction Hk as [|x k Ex Hk IH]; intros postfix.
  - cbn. now rewrite app_nil_r.
  - cbn [app process_closing_parenthesis]. rewrite Ex, IH, <- app_assoc.
    reflexivity.
Qed.

Lemma pop_all_all (stack postfix : list string) :
  pop_all stack postfix = Val (postfix ++ stack).
Proof.
  revert postfix. induction stack as [|x r IH]; intros postfix; cbn.
  - rewrite ll_len_length. cbn. now rewrite app_nil_r.
  - rewrite ll_len_length. cbn. rewrite IH, <- app_assoc. reflexivity.
Qed.

Lemma binds_from_not_paren (q : nat) (t : string) :
  binds_from q t -> String.eqb t "(" = false.
Proof.
  intros [qx [E _]]. destruct (String.eqb t "(") eqn:P; [|reflexivity].
  apply String.eqb_eq in P. subst. discriminate.
Qed.

Lemma infix_step_symbol (o : op) (stack postfix : list string) :
  infix_step (stack, postfix) (symbol o)
  = process_operator stack postfix (symbol o).
Proof. destruct o; reflexivity. Qed.

Lemma infix_step_operand (t : string) (stack postfix : list string) :
  operand t = true ->
  infix_step (stack, postfix) t = Val (stack, postfix ++ [t]).
Proof.
  intros H. destruct (operand_token t H) as [_ [E1 [E2 E3]]].
  unfold infix_step. cbn [fst snd]. now rewrite E1, E2, E3.
Qed.

(** Reading the infix notation of an expression from a stack whose top binds
    below it leaves the stack in place under some operators of the expression
    that still wait, and the output followed by those operators is the
    postfix notation of the expression. *)
Lemma infix_loop_expr (e : expr) (stack postfix : list string) :
  left_assoc e = true -> operands_ok e = true ->
  binds_below stack (level e) ->
  exists k out,
    infix_loop (infix e) (stack, postfix) = Val (k ++ stack, postfix ++ out)
    /\ out ++ k = Evaluator.postfix e
    /\ Forall (binds_from (level e)) k.
Proof.
  revert stack postfix.
  induction e as [t|o l IHl r IHr|e IH]; intros stack postfix Hw Ho Hb.
  - exists [], [t]. cbn. rewrite (infix_step_operand t stack postfix Ho).
    repeat split. constructor.
  - cbn in Hw, Ho. andb_hyp Hw. apply andb_true_iff in Ho.
    destruct Ho as [Hol Hor].
    apply Nat.leb_le in H0. apply Nat.ltb_lt in H.
    destruct (IHl stack postfix Hw Hol) as [kl [outl [El [Pl Fl]]]].
    { apply binds_below_mono with (prec o); assumption. }
    cbn [infix]. rewrite infix_loop_app, El. cbn [bind infix_loop].
    rewrite infix_step_symbol.
    rewrite (process_operator_pops kl stack (postfix ++ outl) (symbol o)
               (prec o)).
    2:{ revert Fl. apply Forall_impl. intros t. now apply binds_from_mono. }
    2:{ exact Hb. }
    2:{ apply precedence_symbol. }
    cbn [bind].
    destruct (IHr (symbol o :: stack) ((postfix ++ outl) ++ kl) H1 Hor)
      as [kr [outr [Er [Pr Fr]]]].
    { cbn. rewrite precedence_symbol. exact H. }
    rewrite Er. exists (kr ++ [symbol o]), (outl ++ kl ++ outr).
    split; [|split].
    + f_equal. f_equal.
      * now rewrite <- app_assoc.
      * now rewrite <- !app_assoc.
    + cbn [Evaluator.postfix]. rewrite <- Pl, <- Pr, <- !app_assoc.
      reflexivity.
    + apply Forall_app. split.
      * revert Fr. apply Forall_impl. intros t. apply binds_from_mono.
        cbn [level]. lia.
      * repeat constructor. exists (prec o). split;
          [apply precedence_symbol | cbn; lia].
  - cbn in Hw, Ho. cbn [infix].
    change ("(" :: infix e ++ [")"]) with (["("] ++ infix e ++ [")"]).
    rewrite infix_loop_app. cbn [infix_loop bind].
    change (infix_step (stack, postfix) "(")
      with (Val (process_opening_parenthesis stack, postfix)).
    unfold process_opening_parenthesis, push. rewrite ll_append_cons.
    cbn [bind].
    destruct (IH ("(" :: stack) postfix Hw Ho) as [k [out [E [P F]]]];
      [exact I|].
    rewrite infix_loop_app, E. cbn [bind infix_loop].
    change (infix_step (k ++ "(" :: stack, postfix ++ out) ")")
      with (process_closing_parenthesis (k ++ "(" :: stack) (postfix ++ out)).
    rewrite process_closing_pops.
    2:{ revert F. apply Forall_impl. intros t. apply binds_from_not_paren. }
    cbn [bind]. exists [], (out ++ k). split; [|split].
    + cbn. now rewrite <- app_assoc.
    + cbn [Evaluator.postfix]. now rewrite app_nil_r.
    + constructor.
Qed.

Lemma infix_to_postfix_expr (e : expr) :
  left_assoc e = true -> operands_ok e = true ->
  infix_to_postfix (join (infix e)) = Val (join (Evaluator.postfix e)).
Proof.
  intros Hw Ho. unfold infix_to_postfix.
  rewrite (tokenize_join_tokens _ (infix_word_tokens e Ho)), ll_new_nil.
  destruct (infix_loop_expr e [] [] Hw Ho I) as [k [out [E [P _]]]].
  rewrite E. cbn [bind fst snd]. rewrite pop_all_all. cbn [bind].
  rewrite app_nil_r. cbn [app]. now rewrite P.
Qed.

(** X11: for an expression written in infix notation, with or without
    parentheses that are not needed, [infix_to_postfix] returns its postfix
    notation when operators of equal precedence are read from left to right,
    the power operator included. *)
Theorem infix_to_postfix_notation (e : expr) :
  left_assoc e = true -> operands_ok e = true ->
  infix_to_postfix (join (infix e)) = Val (join (Evaluator.postfix e))
  /\ tokenize (join (Evaluator.postfix e)) = Evaluator.postfix e.
Proof.
  intros Hw Ho. split; [now apply infix_to_postfix_expr|].
  apply tokenize_join_tokens, postfix_word_tokens, Ho.
Qed.

End InfixFacts.

Lemma infix_to_postfix_notation_witness :
  let e := Bin Times (Bin Power (Bin Power (Num "2") (Num "3")) (Num "2"))
             (Paren (Bin Plus (Num "1") (Num "4"))) in
  left_assoc e = true /\ operands_ok e = true
  /\ infix_to_postfix "2 ** 3 ** 2 * ( 1 + 4 )" = Val "2 3 ** 2 ** 1 4 + *".
Proof.
  intros e. split; [reflexivity|]. split; [reflexivity|].
  exact (proj1 (infix_to_postfix_notation e eq_refl eq_refl)).
Defined.

(** ** Evaluation of infix expressions *)

Section EvaluateFacts.

Context {L : LinkedList}.
Variable num : Type.
Variable float : string -> res num.
Variables py_sub py_add py_mul py_div py_pow : num -> num -> res num.

Local Abbreviation loop :=
  (postfix_loop num float py_sub py_add py_mul py_div py_pow).
Local Abbreviation eval_postfix :=
  (evaluate_postfix num float py_sub py_add py_mul py_div py_pow).
Local Abbreviation eval :=
  (evaluate num float py_sub py_add py_mul py_div py_pow).
Local Abbreviation val := (value num float py_sub py_add py_mul py_div py_pow).

Lemma evaluate_postfix_expr (e : expr) :
  operands_ok e = true ->
  eval_postfix (join (Evaluator.postfix e)) = val e.
Proof.
  intros Ho. unfold evaluate_postfix.
  rewrite (tokenize_join_tokens _ (postfix_word_tokens e Ho)), ll_new_nil.
  rewrite (loop_postfix num float py_sub py_add py_mul py_div py_pow e [] Ho).
  destruct (val e); reflexivity.
Qed.

(** X12: [evaluate] returns the value of the expression that the infix
    notation denotes when operators of equal precedence are read from left to
    right, and raises exactly when an operand or an operation of that
    expression does. *)
Theorem evaluate_value (e : expr) :
  left_assoc e = true -> operands_ok e = true ->
  eval (join (infix e)) = val e.
Proof.
  intros Hw Ho. unfold evaluate.
  rewrite (infix_to_postfix_expr e Hw Ho). cbn [bind].
  apply evaluate_postfix_expr, Ho.
Qed.

End EvaluateFacts.

Lemma evaluate_value_witness :
  let e := Bin Power (Bin Power (Num "2") (Num "3")) (Num "2") in
  left_assoc e = true /\ operands_ok e = true
  /\ evaluate Q q_float q_sub q_add q_mul q_div q_pow "2 ** 3 ** 2" = Val 64%Q.
Proof.
  intros e. split; [reflexivity|]. split; [reflexivity|].
  exact (evaluate_value Q q_float q_sub q_add q_mul q_div q_pow e
           eq_refl eq_refl).
Defined.

(** ** What the conversion keeps, whatever the expression *)

Lemma count_app (x : string) (a b : list string) :
  count x (a ++ b) = (count x a + count x b)%nat.
Proof. apply count_occ_app. Qed.

Lemma count_cons (x y : string) (l : list string) :
  count x (y :: l) = (count x [y] + count x l)%nat.
Proof. change (y :: l) with ([y] ++ l). apply count_app. Qed.

Lemma count_one (x y : string) :
  count x [y] = if String.eqb y x then 1%nat else 0%nat.
Proof.
  unfold count. cbn. destruct (string_dec y x) as [E|E].
  - subst. now rewrite String.eqb_refl.
  - apply String.eqb_neq in E. now rewrite E.
Qed.

Lemma count_pos_In (x : string) (l : list string) :
  In x l <-> (1 <= count x l)%nat.
Proof. unfold count. rewrite (count_occ_In string_dec). lia. Qed.

Lemma count_filter_other (x y : string) (l : list string) :
  String.eqb x y = false ->
  count x (filter (fun t => negb (String.eqb t y)) l) = count x l.
Proof.
  intros E. induction l as [|t r IH]; [reflexivity|].
  cbn [filter]. destruct (String.eqb t y) eqn:T; cbn [negb].
  - rewrite (count_cons x t r), count_one, IH.
    apply String.eqb_eq in T. subst t. rewrite String.eqb_sym, E. reflexivity.
  - rewrite (count_cons x t r), (count_cons x t (filter _ r)), IH.
    reflexivity.
Qed.

Lemma filter_none_numbers (k : list string) :
  Forall (fun t => is_number t = false) k -> filter is_number k = [].
Proof.
  induction 1 as [|x k Hx Hk IH]; [reflexivity|]. cbn. now rewrite Hx.
Qed.

Lemma operator_not_number (t : string) :
  is_operator t = true -> is_number t = false.
Proof.
  intros H. unfold is_number. rewrite H. cbn. apply andb_false_r.
Qed.

Section ConversionFacts.

Context {L : LinkedList}.

Lemma process_operator_shape (stack postfix : list string)
  (operator : string) (stack' postfix' : list string) :
  process_operator stack postfix operator = Val (stack', postfix') ->
  exists k rest,
    stack = k ++ rest /\ stack' = operator :: rest /\ postfix' = postfix ++ k
    /\ Forall (fun t => is_operator t = true) k.
Proof.
  revert postfix.
  induction stack as [|x r IH]; intros postfix; cbn [process_operator];
    rewrite ll_len_length; cbn [List.length Nat.ltb Nat.leb]; unfold push;
    rewrite ?ll_append_cons.
  - intros H. injection H as <- <-. exists [], []. rewrite !app_nil_r.
    repeat split. constructor.
  - destruct (precedence x) as [pt|] eqn:Ex.
    + destruct (precedence operator) as [po|]; [|discriminate].
      destruct (po <=? pt)%nat.
      * intros H. destruct (IH _ H) as [k [rest [-> [-> [-> Hk]]]]].
        exists (x :: k), rest. rewrite <- app_assoc. repeat split.
        constructor; [|exact Hk]. unfold is_operator. now rewrite Ex.
      * intros H. injection H as <- <-. exists [], (x :: r).
        rewrite !app_nil_r. repeat split. constructor.
    + intros H. injection H as <- <-. exists [], (x :: r).
      rewrite !app_nil_r. repeat split. constructor.
Qed.

Lemma process_closing_shape (stack postfix stack' postfix' : list string) :
  process_closing_parenthesis stack postfix = Val (stack', postfix') ->
  exists k,
    stack = k ++ "(" :: stack' /\ postfix' = postfix ++ k.
Proof.
  revert postfix. induction stack as [|x r IH]; intros postfix; cbn;
    [discriminate|].
  destruct (String.eqb x "(") eqn:E.
  - apply String.eqb_eq in E. subst x. intros H. injection H as <- <-.
    exists []. now rewrite app_nil_r.
  - intros H. destruct (IH _ H) as [k [-> ->]].
    exists (x :: k). now rewrite <- app_assoc.
Qed.

(** One token of the input: a closing parenthesis removes an opening one,
    every other token is added to the stack or to the output. *)
Lemma infix_step_count (stack postfix : list string) (t : string)
  (stack' postfix' : list string) (x : string) :
  infix_step (stack, postfix) t = Val (stack', postfix') ->
  (count x (postfix' ++ stack')
   + (if String.eqb t ")" then count x ["("] else 0)
   = count x (postfix ++ stack)
     + (if String.eqb t ")" then 0 else count x [t]))%nat.
Proof.
  unfold infix_step. cbn [fst snd].
  destruct (String.eqb t "(") eqn:E1.
  - apply String.eqb_eq in E1. subst t.
    unfold process_opening_parenthesis, push. rewrite ll_append_cons.
    intros H. injection H as <- <-.
    change (String.eqb "(" ")") with false. cbv iota.
    rewrite !count_app, (count_cons x "(" stack). lia.
  - destruct (String.eqb t ")") eqn:E2.
    + intros H. destruct (process_closing_shape _ _ _ _ H) as [k [-> ->]].
      rewrite !count_app, (count_cons x "(" stack'). lia.
    + destruct (precedence t) eqn:E3.
      * intros H.
        destruct (process_operator_shape _ _ _ _ _ H)
          as [k [rest [-> [-> [-> _]]]]].
        rewrite !count_app, (count_cons x t rest). lia.
      * unfold process_number. intros H. injection H as <- <-.
        rewrite !count_app. lia.
Qed.

Lemma infix_loop_count (ts : list string) (stack postfix : list string)
  (stack' postfix' : list string) (x : string) :
  infix_loop ts (stack, postfix) = Val (stack', postfix') ->
  (count x (postfix' ++ stack')
   + (if String.eqb x "(" then count ")" ts else 0)
   = count x (postfix ++ stack)
     + count x (filter (fun t => negb (String.eqb t ")")) ts))%nat.
Proof.
  revert stack postfix. induction ts as [|t r IH]; intros stack postfix.
  - cbn. intros H. injection H as <- <-. destruct (String.eqb x "("); lia.
  - cbn [infix_loop].
    destruct (infix_step (stack, postfix) t) as [|[s1 p1]] eqn:E;
      [discriminate|].
    cbn [bind]. intros H. specialize (IH _ _ H).
    pose proof (infix_step_count _ _ _ _ _ x E) as HS.
    rewrite (count_cons ")" t r), (count_one ")" t). cbn [filter].
    destruct (String.eqb t ")") eqn:T; cbn [negb].
    + rewrite (count_one x "(") in HS. rewrite (String.eqb_sym "(" x) in HS.
      destruct (String.eqb x "("); lia.
    + rewrite (count_cons x t (filter _ r)).
      destruct (String.eqb x "("); lia.
Qed.

Lemma infix_step_numbers (stack postfix : list string) (t : string)
  (stack' postfix' : list string) :
  infix_step (stack, postfix) t = Val (stack', postfix') ->
  Forall (fun y => is_number y = false) stack ->
  Forall (fun y => is_number y = false) stack'
  /\ filter is_number postfix'
     = filter is_number postfix ++ filter is_number [t].
Proof.
  unfold infix_step. cbn [fst snd]. intros H Hs.
  destruct (String.eqb t "(") eqn:E1.
  - apply String.eqb_eq in E1. subst t.
    unfold process_opening_parenthesis, push in H.
    rewrite ll_append_cons in H. injection H as <- <-.
    split; [constructor; [reflexivity | exact Hs]|].
    cbn. now rewrite app_nil_r.
  - destruct (String.eqb t ")") eqn:E2.
    + destruct (process_closing_shape _ _ _ _ H) as [k [-> ->]].
      apply Forall_app in Hs. destruct Hs as [Hk Hs].
      inversion Hs; subst. split; [assumption|].
      rewrite filter_app, (filter_none_numbers k Hk).
      assert (Hn : is_number t = false)
        by (unfold is_number; rewrite E1, E2; reflexivity).
      cbn [filter]. now rewrite Hn.
    + destruct (precedence t) eqn:E3.
      * destruct (process_operator_shape _ _ _ _ _ H)
          as [k [rest [-> [-> [-> Hk]]]]].
        apply Forall_app in Hs. destruct Hs as [Hk' Hs].
        assert (Hn : is_number t = false).
        { apply operator_not_number. unfold is_operator. now rewrite E3. }
        split; [constructor; assumption|].
        rewrite filter_app, (filter_none_numbers k Hk').
        cbn. now rewrite Hn.
      * unfold process_number in H. injection H as <- <-.
        split; [exact Hs | apply filter_app].
Qed.

Lemma infix_loop_numbers (ts : list string) (stack postfix : list string)
  (stack' postfix' : list string) :
  infix_loop ts (stack, postfix) = Val (stack', postfix') ->
  Forall (fun y => is_number y = false) stack ->
  Forall (fun y => is_number y = false) stack'
  /\ filter is_number postfix'
     = filter is_number postfix ++ filter is_number ts.
Proof.
  revert stack postfix. induction ts as [|t r IH]; intros stack postfix.
  - cbn. intros H Hs. injection H as <- <-. now rewrite app_nil_r.
  - cbn [infix_loop].
    destruct (infix_step (stack, postfix) t) as [|[s1 p1]] eqn:E;
      [discriminate|].
    cbn [bind]. intros H Hs.
    destruct (infix_step_numbers _ _ _ _ _ E Hs) as [Hs1 E1].
    destruct (IH _ _ H Hs1) as [Hs' E'].
    split; [exact Hs'|]. rewrite E', E1, <- app_assoc.
    change (t :: r) with ([t] ++ r). now rewrite filter_app.
Qed.

(** The output of a conversion that returns, as tokens. *)
Lemma infix_to_postfix_tokens (expression p : string) :
  infix_to_postfix expression = Val p ->
  exists out,
    p = join out /\ tokenize p = out
    /\ filter is_number out = filter is_number (tokenize expression)
    /\ forall x,
         (count x out
          + (if String.eqb x "(" then count ")" (tokenize expression) else 0)
          = count x (filter (fun t => negb (String.eqb t ")"))
                       (tokenize expression)))%nat.
Proof.
  unfold infix_to_postfix. rewrite ll_new_nil.
  destruct (infix_loop (tokenize expression) ([], [])) as [|[s1 p1]] eqn:E;
    [discriminate|].
  cbn [bind fst snd]. rewrite pop_all_all. cbn [bind].
  intros H. injection H as <-.
  assert (C : forall x,
             (count x (p1 ++ s1)
              + (if String.eqb x "(" then count ")" (tokenize expression)
                 else 0)
              = count x (filter (fun t => negb (String.eqb t ")"))
                           (tokenize expression)))%nat).
  { intros x. apply (infix_loop_count _ _ _ _ _ x E). }
  destruct (infix_loop_numbers _ _ _ _ _ E (Forall_nil _)) as [Hs1 N].
  assert (W : Forall (fun t => word_token t = true) (p1 ++ s1)).
  { apply Forall_forall. intros x Hx. apply count_pos_In in Hx.
    specialize (C x).
    assert (Hin : In x (filter (fun t => negb (String.eqb t ")"))
                          (tokenize expression))).
    { apply count_pos_In. destruct (String.eqb x "("); lia. }
    apply filter_In in Hin. destruct Hin as [Hin _].
    pose proof (tokenize_word_tokens expression) as Ht.
    rewrite Forall_forall in Ht. apply Ht, Hin. }
  exists (p1 ++ s1). split; [reflexivity|].
  split; [apply tokenize_join_tokens, W|]. split; [|exact C].
  rewrite filter_app, (filter_none_numbers s1 Hs1), app_nil_r. exact N.
Qed.

(** X13: when [infix_to_postfix] returns, the numbers of its output are
    those of the expression in the same order, every operator occurs as often
    as in the expression, a closing parenthesis never occurs, and an opening
    one occurs as often as opening parentheses were left unclosed. *)
Theorem infix_to_postfix_conserves (expression p : string) :
  infix_to_postfix expression = Val p ->
  filter is_number (tokenize p) = filter is_number (tokenize expression)
  /\ (forall x, is_operator x = true ->
        count x (tokenize p) = count x (tokenize expression))
  /\ count ")" (tokenize p) = 0%nat
  /\ (count "(" (tokenize p) + count ")" (tokenize expression)
      = count "(" (tokenize expression))%nat.
Proof.
  intros H. destruct (infix_to_postfix_tokens _ _ H) as [out [_ [-> [N C]]]].
  split; [exact N|]. split; [|split].
  - intros x Hx. specialize (C x).
    assert (E1 : String.eqb x "(" = false).
    { destruct (String.eqb x "(") eqn:E; [|reflexivity].
      apply String.eqb_eq in E. subst. discriminate. }
    assert (E2 : String.eqb x ")" = false).
    { destruct (String.eqb x ")") eqn:E; [|reflexivity].
      apply String.eqb_eq in E. subst. discriminate. }
    rewrite E1 in C. rewrite (count_filter_other x ")" _ E2) in C. lia.
  - specialize (C ")").
    change (String.eqb ")" "(") with false in C. cbv iota in C.
    assert (Z0 : count ")" (filter (fun t => negb (String.eqb t ")"))
                             (tokenize expression)) = 0%nat).
    { apply (count_occ_not_In string_dec). intros Hin.
      apply filter_In in Hin. destruct Hin as [_ Hin].
      now rewrite String.eqb_refl in Hin. }
    lia.
  - specialize (C "("). rewrite String.eqb_refl in C.
    rewrite (count_filter_other "(" ")" _ eq_refl) in C. exact C.
Qed.

Lemma closing_after_opening (expression p : string) :
  infix_to_postfix expression = Val p ->
  forall before after, tokenize expression = before ++ after ->
    (count ")" before <= count "(" before)%nat.
Proof.
  unfold infix_to_postfix. rewrite ll_new_nil.
  destruct (infix_loop (tokenize expression) ([], [])) as [|st] eqn:E;
    [discriminate|].
  intros _ before after Hs. rewrite Hs, infix_loop_app in E.
  destruct (infix_loop before ([], [])) as [|[s1 p1]] eqn:E1; [discriminate|].
  pose proof (infix_loop_count _ _ _ _ _ "(" E1) as C.
  rewrite String.eqb_refl in C.
  rewrite (count_filter_other "(" ")" _ eq_refl) in C.
  cbn [app] in C. change (count "(" []) with 0%nat in C. lia.
Qed.

(** X14: [infix_to_postfix] returns only when no closing parenthesis comes
    before its opening one: otherwise [process_closing_parenthesis] empties
    the stack and [peek] raises.  So an expression it returns on has at
    least as many opening parentheses as closing ones. *)
Theorem infix_to_postfix_needs_opening (expression p : string) :
  infix_to_postfix expression = Val p ->
  (forall before after, tokenize expression = before ++ after ->
     (count ")" before <= count "(" before)%nat)
  /\ (count ")" (tokenize expression) <= count "(" (tokenize expression))%nat.
Proof.
  intros H. split; [exact (closing_after_opening _ _ H)|].
  apply (closing_after_opening _ _ H _ []). now rewrite app_nil_r.
Qed.

End ConversionFacts.

Lemma infix_to_postfix_conserves_witness :
  infix_to_postfix "( 1 + 2 ) * ( 3" = Val "1 2 + 3 ( *"
  /\ (count "(" (tokenize "1 2 + 3 ( *")
      + count ")" (tokenize "( 1 + 2 ) * ( 3")
      = count "(" (tokenize "( 1 + 2 ) * ( 3"))%nat.
Proof.
  split; [reflexivity|].
  exact (proj2 (proj2 (proj2
           (infix_to_postfix_conserves "( 1 + 2 ) * ( 3" "1 2 + 3 ( *"
              eq_refl)))).
Defined.

Lemma infix_to_postfix_needs_opening_witness :
  infix_to_postfix "( 1 + 2 ) * ( 3" = Val "1 2 + 3 ( *"
  /\ (count ")" (tokenize "( 1 + 2 ) * ( 3")
      <= count "(" (tokenize "( 1 + 2 ) * ( 3"))%nat.
Proof.
  split; [reflexivity|].
  exact (proj2 (infix_to_postfix_needs_opening "( 1 + 2 ) * ( 3"
                  "1 2 + 3 ( *" eq_refl)).
Defined.

(** ** Parentheses and [evaluate] *)

Section BalanceFacts.

Context {L : LinkedList}.
Variable num : Type.
Variable float : string -> res num.
Variables py_sub py_add py_mul py_div py_pow : num -> num -> res num.

Local Abbreviation loop :=
  (postfix_loop num float py_sub py_add py_mul py_div py_pow).
Local Abbreviation eval :=
  (evaluate num float py_sub py_add py_mul py_div py_pow).

(** A loop that ends has converted every token that is no operator. *)
Lemma loop_converts (ts : list string) (stack stack' : list num) (t : string) :
  loop ts stack = Val stack' -> In t ts -> precedence t = None ->
  float t <> Stop.
Proof.
  intros H Hin Hp. apply in_split in Hin. destruct Hin as [a [b ->]].
  rewrite (loop_app num float py_sub py_add py_mul py_div py_pow) in H.
  destruct (loop a stack) as [|s1]; [discriminate|]. cbn in H.
  rewrite (step_operand num float py_sub py_add py_mul py_div py_pow t s1 Hp)
    in H.
  destruct (float t); [discriminate | discriminate].
Qed.

(** X15: when [float] rejects a parenthesis, as Python's does, [evaluate]
    returns a value only for an expression whose parentheses are balanced:
    an unclosed opening parenthesis reaches the postfix expression and
    [evaluate_postfix] raises on it. *)
Theorem evaluate_needs_balanced (expression : string) (v : num) :
  float "(" = Stop ->
  eval expression = Val v ->
  count "(" (tokenize expression) = count ")" (tokenize expression)
  /\ forall before after, tokenize expression = before ++ after ->
       (count ")" before <= count "(" before)%nat.
Proof.
  intros Hf. unfold evaluate.
  destruct (infix_to_postfix expression) as [|p] eqn:E; [discriminate|].
  cbn [bind]. unfold evaluate_postfix. rewrite ll_new_nil.
  destruct (loop (tokenize p) []) as [|s] eqn:El; [discriminate|].
  intros _. split; [|exact (closing_after_opening _ _ E)].
  destruct (infix_to_postfix_tokens _ _ E) as [out [_ [Et [_ C]]]].
  specialize (C "("). rewrite String.eqb_refl in C.
  rewrite (count_filter_other "(" ")" _ eq_refl) in C.
  rewrite Et in El.
  destruct (count "(" out) as [|n] eqn:N; [lia|].
  exfalso. apply (loop_converts out [] s "(" El); [|reflexivity | exact Hf].
  apply count_pos_In. lia.
Qed.

End BalanceFacts.

Lemma evaluate_needs_balanced_witness :
  q_float "(" = Stop
  /\ evaluate Q q_float q_sub q_add q_mul q_div q_pow "( 1 + 2 ) * 3" = Val 9%Q
  /\ count "(" (tokenize "( 1 + 2 ) * 3") = count ")" (tokenize "( 1 + 2 ) * 3").
Proof.
  split; [reflexivity|]. split; [reflexivity|].
  exact (proj1 (evaluate_needs_balanced Q q_float q_sub q_add q_mul q_div
                  q_pow "( 1 + 2 ) * 3" 9%Q eq_refl eq_refl)).
Defined.

End EvaluatorFacts.

(** * Properties of the split *)

Module SplitFacts.
Import Split.

Lemma Qfloor_between (x : Q) (z : Z) :
  (inject_Z z <= x)%Q -> (x < inject_Z (z + 1))%Q -> Qfloor x = z.
Proof.
  intros H1 H2.
  pose proof (Qfloor_le x) as F1. pose proof (Qlt_floor x) as F2.
  assert (A : (inject_Z (Qfloor x) < inject_Z (z + 1))%Q)
    by (eapply Qle_lt_trans; eauto).
  assert (B : (inject_Z z < inject_Z (Qfloor x + 1))%Q)
    by (eapply Qle_lt_trans; eauto).
  rewrite <- Zlt_Qlt in A, B. lia.
Qed.

Lemma trunc_between (x : Q) (z : Z) :
  (0 <= z)%Z -> (inject_Z z <= x)%Q -> (x < inject_Z (z + 1))%Q ->
  trunc x = z.
Proof.
  intros Hz H1 H2. unfold trunc.
  assert (P : Qle_bool 0 x = true).
  { apply Qle_bool_iff. apply Qle_trans with (inject_Z z); [|exact H1].
    now apply inject_Z_nonneg. }
  rewrite P. now apply Qfloor_between.
Qed.

Lemma nth_run_zero (y : list Z) (m : nat) :
  (m <= List.length y)%nat ->
  map (fun i => nth_error y i) (seq 0 m) = map Some (firstn m y).
Proof.
  revert m. induction y as [|a r IH]; intros m Hm.
  - destruct m; [reflexivity | cbn in Hm; lia].
  - destruct m as [|m]; [reflexivity|].
    cbn [seq map firstn nth_error]. f_equal.
    rewrite <- seq_shift, map_map. cbn [nth_error].
    apply IH. cbn in Hm. lia.
Qed.

Lemma nth_run (x : list Z) (a m : nat) :
  (a + m <= List.length x)%nat ->
  map (fun i => nth_error x (a + i)) (seq 0 m)
  = map Some (firstn m (skipn a x)).
Proof.
  intros H. rewrite <- nth_run_zero by (rewrite length_skipn; lia).
  apply map_ext. intros i. symmetry. apply nth_error_skipn.
Qed.

(** Indices that truncate to the positions [a + 1], ..., [a + m] select the
    [m] elements after the first [a]. *)
Lemma subscript_run (x : list Z) (i : list Q) (a m : nat) :
  map trunc i = map (fun j => Z.of_nat (a + 1 + j)) (seq 0 m) ->
  (a + m <= List.length x)%nat ->
  subscript x i = Val (map Some (firstn m (skipn a x))).
Proof.
  intros E H. unfold subscript. rewrite E.
  assert (N : existsb (fun k => (k <? 0)%Z)
                (map (fun j => Z.of_nat (a + 1 + j)) (seq 0 m)) = false).
  { destruct (existsb _ _) eqn:X; [|reflexivity].
    apply existsb_exists in X. destruct X as [k [Hk Hneg]].
    apply in_map_iff in Hk. destruct Hk as [j [<- _]].
    apply Z.ltb_lt in Hneg. lia. }
  rewrite N. f_equal. rewrite <- (nth_run x a m H).
  generalize (seq 0 m). intros l. induction l as [|j r IH]; [reflexivity|].
  cbn [map flat_map]. rewrite IH.
  assert (Z0 : (Z.of_nat (a + 1 + j) =? 0)%Z = false)
    by (apply Z.eqb_neq; lia).
  rewrite Z0. cbn [app]. do 2 f_equal. lia.
Qed.

Lemma colon_upward (from to : Q) (m : nat) :
  (from <= to)%Q ->
  trunc (Qabs (to - from) + 1 + FLT_EPSILON) = Z.of_nat m ->
  colon from to = map (fun i => from + inject_Z (Z.of_nat i))%Q (seq 0 m).
Proof.
  intros H E. unfold colon. rewrite E, Nat2Z.id.
  apply Qle_bool_iff in H. apply map_ext. intros i. now rewrite H.
Qed.

Lemma Qabs_nonneg_id (x : Q) : (0 <= x)%Q -> (Qabs x == x)%Q.
Proof. apply Qabs_pos. Qed.

(** The halves of a length [len] of 2 or more, for [h = len / 2]. *)
Lemma half_bounds (len : nat) :
  (2 <= len)%nat ->
  let h := inject_Z (Z.of_nat (len / 2)) in
  let x := (inject_Z (Z.of_nat len) / 2)%Q in
  (h <= x)%Q /\ (x <= h + (1 # 2))%Q /\ (1 <= h)%Q
  /\ (2 * h <= inject_Z (Z.of_nat len))%Q.
Proof.
  intros H h x. subst h x.
  pose proof (Nat.div_mod_eq len 2) as D.
  pose proof (Nat.mod_upper_bound len 2 ltac:(lia)) as U.
  assert (Hh : (1 <= len / 2)%nat).
  { destruct (len / 2)%nat eqn:E; [lia | lia]. }
  set (hn := (len / 2)%nat) in *. set (b := (len mod 2)%nat) in *.
  assert (E : inject_Z (Z.of_nat len)
              = inject_Z (2 * Z.of_nat hn + Z.of_nat b)).
  { f_equal. lia. }
  rewrite E, inject_Z_plus, inject_Z_mult. change (inject_Z 2) with 2%Q.
  assert (B0 : (0 <= inject_Z (Z.of_nat b))%Q)
    by (apply inject_Z_nonneg; lia).
  assert (B1 : (inject_Z (Z.of_nat b) <= 1)%Q).
  { change 1%Q with (inject_Z 1). rewrite <- Zle_Qle. lia. }
  assert (H1 : (1 <= inject_Z (Z.of_nat hn))%Q).
  { change 1%Q with (inject_Z 1). rewrite <- Zle_Qle. lia. }
  unfold Qdiv. change (/ 2)%Q with (1 # 2)%Q.
  repeat split; lra.
Qed.

Lemma one_to_upward (n : Z) :
  (1 <= n)%Z -> one_to n = map Z.of_nat (seq 1 (Z.to_nat n)).
Proof.
  intros H. unfold one_to.
  assert (Hn : (1 <= inject_Z n)%Q).
  { change 1%Q with (inject_Z 1). now rewrite <- Zle_Qle. }
  rewrite (colon_upward 1 (inject_Z n) (Z.to_nat n) Hn).
  - rewrite <- seq_shift, !map_map. apply map_ext. intros i.
    apply trunc_between; [lia | |].
    + rewrite Nat2Z.inj_succ, <- Z.add_1_l, inject_Z_plus.
      change (inject_Z 1) with 1%Q. lra.
    + rewrite Nat2Z.inj_succ, <- Z.add_1_l, !inject_Z_plus.
      change (inject_Z 1) with 1%Q. lra.
  - assert (P : (0 <= inject_Z n - 1)%Q) by lra.
    rewrite Z2Nat.id by lia.
    apply trunc_between; [lia | |];
      rewrite (Qabs_nonneg_id _ P); unfold FLT_EPSILON.
    + lra.
    + rewrite inject_Z_plus. change (inject_Z 1) with 1%Q. lra.
Qed.

Lemma one_to_In (n i : Z) :
  (1 <= n)%Z -> In i (one_to n) <-> (1 <= i <= n)%Z.
Proof.
  intros H. rewrite (one_to_upward n H), in_map_iff. split.
  - intros [k [<- Hk]]. apply in_seq in Hk. lia.
  - intros Hi. exists (Z.to_nat i). split; [lia|]. apply in_seq. lia.
Qed.

Lemma one_to_NoDup (n : Z) : (1 <= n)%Z -> NoDup (one_to n).
Proof.
  intros H. rewrite (one_to_upward n H).
  apply NoDup_map_NoDup_ForallPairs; [|apply seq_NoDup].
  intros a b _ _. apply Nat2Z.inj.
Qed.

Lemma mem_int_In (k : Z) (l : list Z) : mem_int k l = true <-> In k l.
Proof.
  unfold mem_int. rewrite existsb_exists. split.
  - intros [y [Hy E]]. apply Z.eqb_eq in E. now subst.
  - intros H. exists k. split; [exact H | apply Z.eqb_refl].
Qed.

Lemma unique_int_In (k : Z) (l : list Z) : In k (unique_int l) <-> In k l.
Proof.
  induction l as [|x r IH]; [reflexivity|].
  cbn [unique_int In]. rewrite filter_In, IH. split.
  - intros [E | [Hk _]]; auto.
  - intros [E | Hk]; [now left|].
    destruct (Z.eq_dec x k) as [E | N]; [now left | right].
    split; [exact Hk|]. apply negb_true_iff. now apply Z.eqb_neq.
Qed.

Lemma unique_int_NoDup (l : list Z) : NoDup (unique_int l).
Proof.
  induction l as [|x r IH]; [constructor|].
  cbn [unique_int]. constructor.
  - rewrite filter_In. intros [_ E]. now rewrite Z.eqb_refl in E.
  - now apply NoDup_filter.
Qed.

Lemma setdiff_int_In (k : Z) (x y : list Z) :
  In k (setdiff_int x y) <-> In k x /\ ~ In k y.
Proof.
  unfold setdiff_int. rewrite unique_int_In, filter_In, negb_true_iff.
  rewrite <- (mem_int_In k y).
  destruct (mem_int k y); split; intros [A B]; split; auto; congruence.
Qed.

Lemma firstn_In (l : list Z) (a : nat) (i : Z) :
  In i (firstn a l) -> In i l.
Proof.
  intros H. rewrite <- (firstn_skipn a l). apply in_or_app. now left.
Qed.

Lemma skipn_In (l : list Z) (a : nat) (i : Z) :
  In i (skipn a l) -> In i l.
Proof.
  intros H. rewrite <- (firstn_skipn a l). apply in_or_app. now right.
Qed.

Lemma firstn_skipn_apart (l : list Z) (a m : nat) (i : Z) :
  NoDup l -> In i (firstn a l) -> ~ In i (firstn m (skipn a l)).
Proof.
  intros N H1 H2. apply firstn_In in H2.
  rewrite <- (firstn_skipn a l) in N.
  revert N H1 H2. generalize (firstn a l) (skipn a l). intros p q N H1 H2.
  induction p as [|x r IH]; [contradiction|].
  cbn [app] in N. inversion N as [|? ? Hx Hr]; subst.
  destruct H1 as [-> | H1].
  - apply Hx. apply in_or_app. now right.
  - now apply IH.
Qed.

Section IndexFacts.

Variable n : Z.
Variable train_indices : list Z.

Local Abbreviation rem := (remaining_indices n train_indices).
Local Abbreviation len := (List.length (remaining_indices n train_indices)).

Lemma cv_run :
  (2 <= len)%nat ->
  map trunc (colon 1 (half_length n train_indices))
  = map (fun j => Z.of_nat (0 + 1 + j)) (seq 0 (len / 2)).
Proof.
  intros H. destruct (half_bounds len H) as [A [B [C D]]].
  unfold half_length, Zlength_of in *.
  set (x := (inject_Z (Z.of_nat len) / 2)%Q) in *.
  set (h := inject_Z (Z.of_nat (len / 2))) in *.
  assert (Hx : (1 <= x)%Q) by lra.
  rewrite (colon_upward 1 x (len / 2) Hx).
  - rewrite map_map. apply map_ext. intros j.
    apply trunc_between; [lia | |].
    + rewrite Nat.add_0_l, Nat2Z.inj_add, inject_Z_plus.
      change (inject_Z (Z.of_nat 1)) with 1%Q. lra.
    + rewrite Nat.add_0_l, Nat2Z.inj_add, !inject_Z_plus.
      change (inject_Z (Z.of_nat 1)) with 1%Q. change (inject_Z 1) with 1%Q.
      lra.
  - assert (P : (0 <= x - 1)%Q) by lra.
    apply trunc_between; [lia | |];
      rewrite (Qabs_nonneg_id _ P); fold h; unfold FLT_EPSILON.
    + lra.
    + rewrite inject_Z_plus. change (inject_Z 1) with 1%Q. fold h. lra.
Qed.

Lemma test_run :
  (2 <= len)%nat ->
  map trunc (colon (half_length n train_indices + 1)
               (inject_Z (Zlength_of rem)))
  = map (fun j => Z.of_nat (len / 2 + 1 + j)) (seq 0 (len / 2)).
Proof.
  intros H. destruct (half_bounds len H) as [A [B [C D]]].
  unfold half_length, Zlength_of in *.
  set (x := (inject_Z (Z.of_nat len) / 2)%Q) in *.
  set (h := inject_Z (Z.of_nat (len / 2))) in *.
  assert (X2 : (inject_Z (Z.of_nat len) == 2 * x)%Q).
  { subst x. field. }
  assert (Hx : (x + 1 <= inject_Z (Z.of_nat len))%Q) by lra.
  rewrite (colon_upward (x + 1) _ (len / 2) Hx).
  - rewrite map_map. apply map_ext. intros j.
    apply trunc_between; [lia | |].
    + rewrite !Nat2Z.inj_add, !inject_Z_plus. fold h.
      change (inject_Z (Z.of_nat 1)) with 1%Q. lra.
    + rewrite !Nat2Z.inj_add, !inject_Z_plus. fold h.
      change (inject_Z (Z.of_nat 1)) with 1%Q. change (inject_Z 1) with 1%Q.
      lra.
  - assert (P : (0 <= inject_Z (Z.of_nat len) - (x + 1))%Q) by lra.
    apply trunc_between; [lia | |];
      rewrite (Qabs_nonneg_id _ P); fold h; unfold FLT_EPSILON.
    + lra.
    + rewrite inject_Z_plus. change (inject_Z 1) with 1%Q. fold h. lra.
Qed.

(** X16: with two remaining indices or more, the cross-validation indices
    are the first half of them and the test indices the next half, the
    halves rounded down; so with an odd number the last remaining index goes
    to neither set.  With one remaining index both sets hold it, and with
    none both hold [NA]. *)
Theorem split_halves :
  ((2 <= len)%nat ->
   cv_indices n train_indices = Val (map Some (firstn (len / 2) rem))
   /\ test_indices n train_indices
      = Val (map Some (firstn (len / 2) (skipn (len / 2) rem))))
  /\ (len = 1%nat ->
      cv_indices n train_indices = Val (map Some rem)
      /\ test_indices n train_indices = Val (map Some rem))
  /\ (len = 0%nat ->
      cv_indices n train_indices = Val [None]
      /\ test_indices n train_indices = Val [None]).
Proof.
  split; [|split].
  - intros H. unfold cv_indices, test_indices.
    pose proof (Nat.div_mod_eq len 2) as D.
    split.
    + rewrite (subscript_run rem _ 0 (len / 2) (cv_run H)) by lia.
      reflexivity.
    + apply (subscript_run rem _ (len / 2) (len / 2) (test_run H)). lia.
  - unfold cv_indices, test_indices, half_length, Zlength_of.
    destruct rem as [|a [|b r]]; try discriminate.
    intros _. split; reflexivity.
  - unfold cv_indices, test_indices, half_length, Zlength_of.
    destruct rem as [|a r]; try discriminate.
    intros _. split; reflexivity.
Qed.

Lemma remaining_In (i : Z) :
  (1 <= n)%Z -> In i rem <-> (1 <= i <= n)%Z /\ ~ In i train_indices.
Proof.
  intros H. unfold remaining_indices.
  now rewrite setdiff_int_In, (one_to_In n i H).
Qed.

Lemma remaining_NoDup : NoDup rem.
Proof. apply unique_int_NoDup. Qed.

(** X17: for a table of one row or more, the remaining indices are the row
    numbers 1 to [n] that the training sample did not draw, each of them
    once. *)
Theorem remaining_complement :
  (1 <= n)%Z ->
  NoDup (remaining_indices n train_indices)
  /\ forall i, In i (remaining_indices n train_indices)
               <-> (1 <= i <= n)%Z /\ ~ In i train_indices.
Proof.
  intros H. split; [apply remaining_NoDup|].
  intros i. now apply remaining_In.
Qed.

(** X18: when the training sample draws row numbers between 1 and [n]
    without replacement, the number of remaining indices is [n] less the
    size of the sample. *)
Theorem remaining_count :
  (1 <= n)%Z -> NoDup train_indices ->
  (forall i, In i train_indices -> (1 <= i <= n)%Z) ->
  Zlength_of (remaining_indices n train_indices)
  = (n - Zlength_of train_indices)%Z.
Proof.
  intros H N B.
  assert (P : Permutation (train_indices ++ rem) (one_to n)).
  { apply NoDup_Permutation.
    - apply NoDup_app; [exact N | apply remaining_NoDup |].
      intros i Hi Hr. apply (remaining_In i H) in Hr. tauto.
    - now apply one_to_NoDup.
    - intros i. rewrite in_app_iff, (remaining_In i H), (one_to_In n i H).
      split.
      + intros [Hi | [Hi _]]; auto.
      + intros Hi. destruct (in_dec Z.eq_dec i train_indices); auto. }
  apply Permutation_length in P.
  rewrite length_app, (one_to_upward n H), length_map, length_seq in P.
  unfold Zlength_of. lia.
Qed.

(** X19: for a table of one row or more with two remaining indices or more,
    the cross-validation and the test indices are row numbers between 1 and
    [n], none of them drawn by the training sample and none of them in both
    sets. *)
Theorem split_apart :
  (1 <= n)%Z -> (2 <= len)%nat ->
  exists c t,
    cv_indices n train_indices = Val (map Some c)
    /\ test_indices n train_indices = Val (map Some t)
    /\ (forall i, In i c -> ~ In i t)
    /\ (forall i, In i c \/ In i t ->
                  (1 <= i <= n)%Z /\ ~ In i train_indices).
Proof.
  intros Hn H. pose proof (Nat.div_mod_eq len 2) as D.
  exists (firstn (len / 2) rem), (firstn (len / 2) (skipn (len / 2) rem)).
  split; [|split; [|split]].
  - unfold cv_indices.
    rewrite (subscript_run rem _ 0 (len / 2) (cv_run H)) by lia.
    reflexivity.
  - unfold test_indices.
    apply (subscript_run rem _ (len / 2) (len / 2) (test_run H)). lia.
  - intros i. apply firstn_skipn_apart. apply remaining_NoDup.
  - intros i Hi. apply (remaining_In i Hn).
    destruct Hi as [Hi | Hi].
    + eapply firstn_In. exact Hi.
    + apply firstn_In in Hi. eapply skipn_In. exact Hi.
Qed.

End IndexFacts.

(** Five rows of which the sample drew the second and the fourth. *)
Lemma remaining_complement_witness :
  (1 <= 5)%Z
  /\ NoDup (remaining_indices 5 [2; 4]%Z)
  /\ forall i, In i (remaining_indices 5 [2; 4]%Z)
               <-> (1 <= i <= 5)%Z /\ ~ In i [2; 4]%Z.
Proof.
  split; [lia|]. apply (remaining_complement 5 [2; 4]%Z). lia.
Defined.

Lemma remaining_count_witness :
  (1 <= 5)%Z /\ NoDup [2; 4]%Z
  /\ (forall i, In i [2; 4]%Z -> (1 <= i <= 5)%Z)
  /\ Zlength_of (remaining_indices 5 [2; 4]%Z)
     = (5 - Zlength_of [2; 4]%Z)%Z.
Proof.
  assert (N : NoDup [2; 4]%Z).
  { repeat constructor; cbn [In]; lia. }
  assert (B : forall i, In i [2; 4]%Z -> (1 <= i <= 5)%Z).
  { intros i Hi. cbn [In] in Hi. lia. }
  split; [lia|]. split; [exact N|]. split; [exact B|].
  apply (remaining_count 5 [2; 4]%Z); [lia | exact N | exact B].
Defined.

Lemma split_apart_witness :
  (1 <= 5)%Z /\ (2 <= List.length (remaining_indices 5 [2; 4]%Z))%nat
  /\ exists c t,
       cv_indices 5 [2; 4]%Z = Val (map Some c)
       /\ test_indices 5 [2; 4]%Z = Val (map Some t)
       /\ (forall i, In i c -> ~ In i t)
       /\ (forall i, In i c \/ In i t ->
                     (1 <= i <= 5)%Z /\ ~ In i [2; 4]%Z).
Proof.
  assert (L : (2 <= List.length (remaining_indices 5 [2; 4]%Z))%nat).
  { vm_compute. lia. }
  split; [lia|]. split; [exact L|].
  apply (split_apart 5 [2; 4]%Z); [lia | exact L].
Defined.

End SplitFacts.
